(** * Brix Madine: a shallow embedding of the geometry pipeline

    The development follows [brixmadine.py]: the colour matcher
    ([_matchcolor]), the wall refiner ([_levrefine]), the two rasterizers
    ([_gettiles], [_tilepolygon]), the sector ordering and the wall height
    loop of [dfmap], the brick packer ([brickify]) and the model writer
    ([_formatoutput]).

    Numbers.  Python [int] values are [Z].  Python [float] values are
    idealised as rationals [Q]: every finite float is a rational, and
    comparison, negation, [abs] and [int()] are exact on them; sums,
    products and quotients are taken without rounding, and the square root,
    which has no rational counterpart, is a parameter of the one function
    that calls it.  Exceptions are values of [pyerr], threaded through the
    [result] monad. *)

From Stdlib Require Import ZArith QArith Qround Qabs String Ascii List Lia Permutation.
From Stdlib Require Import DecimalString HexadecimalString Lqa Sorted.
From stdpp Require Import base list gmap sets.

Local Open Scope Z_scope.

(** ** Exceptions *)

Inductive pyerr : Set :=
| ValueError | IndexError | KeyError | ZeroDivisionError | UnboundLocalError.

Inductive result (A : Type) : Type :=
| Ok (a : A)
| Raise (e : pyerr).
Arguments Ok {A} a.
Arguments Raise {A} e.

#[global] Instance result_ret : MRet result := fun A a => Ok a.
#[global] Instance result_bind : MBind result := fun A B f m =>
  match m with Ok a => f a | Raise e => Raise e end.
#[global] Instance result_fmap : FMap result := fun A B f m =>
  match m with Ok a => Ok (f a) | Raise e => Raise e end.

(** A list comprehension whose body may raise: left to right, the first
    exception wins. *)
Fixpoint mapR {A B : Type} (f : A → result B) (l : list A) : result (list B) :=
  match l with
  | [] => Ok []
  | a :: l' => b ← f a; bs ← mapR f l'; Ok (b :: bs)
  end.

(** ** Python built-ins *)

(** [int(x)] on a float: truncation toward zero. *)
Definition py_int (q : Q) : Z := Z.quot (Qnum q) (Z.pos (Qden q)).

(** [round(x)] on a float: nearest integer, halves to the even neighbour. *)
Definition py_round (q : Q) : Z :=
  let f := Qfloor q in
  match (q - inject_Z f ?= 1 # 2)%Q with
  | Lt => f
  | Gt => f + 1
  | Eq => if Z.even f then f else f + 1
  end.

(** [l[i]] with Python's negative indices. *)
Definition py_index {A : Type} (l : list A) (i : Z) : result A :=
  let n := Z.of_nat (length l) in
  let j := if i <? 0 then i + n else i in
  if (0 <=? j) && (j <? n)
  then match l !! Z.to_nat j with Some a => Ok a | None => Raise IndexError end
  else Raise IndexError.

(** [range(a, b)]. *)
Definition py_range (a b : Z) : list Z := seqZ a (b - a).

(** [min(l)] and [max(l)]; an empty sequence raises [ValueError]. *)
Definition py_min (l : list Z) : result Z :=
  match l with [] => Raise ValueError | a :: l' => Ok (fold_left Z.min l' a) end.
Definition py_max (l : list Z) : result Z :=
  match l with [] => Raise ValueError | a :: l' => Ok (fold_left Z.max l' a) end.

Definition Qminl (a : Q) (l : list Q) : Q :=
  fold_left (fun m x => if Qlt_le_dec x m then x else m) l a.
Definition Qmaxl (a : Q) (l : list Q) : Q :=
  fold_left (fun m x => if Qlt_le_dec m x then x else m) l a.
Definition py_minQ (l : list Q) : result Q :=
  match l with [] => Raise ValueError | a :: l' => Ok (Qminl a l') end.
Definition py_maxQ (l : list Q) : result Q :=
  match l with [] => Raise ValueError | a :: l' => Ok (Qmaxl a l') end.

(** [str(n)] on an int. *)
Definition py_str (n : Z) : string := DecimalString.NilZero.string_of_int (Z.to_int n).

(** [format(n, '02x')]: lower-case hexadecimal, zero-padded to two
    characters, the sign counting as one. *)
Definition py_hex02 (n : Z) : string :=
  let s := HexadecimalString.NilZero.string_of_int (Z.to_hex_int n) in
  if (String.length s <? 2)%nat then String "0" s else s.

(** ** Colour matcher *)

Definition rgb : Type := Z * Z * Z.

(** A palette row as [_colorparse] builds it: [(id, name, (r, g, b))]. *)
Definition palette_entry : Type := Z * string * rgb.

(** What [_matchcolor] returns: a palette identifier, or in direct mode
    the hexadecimal colour token. *)
Inductive color : Set :=
| ColorId (id : Z)
| ColorHex (token : string).

#[global] Instance color_eq_dec : EqDecision color.
Proof. solve_decision. Defined.

(** [sum([abs(rgb[e] - crgb[e]) for e in (0, 1, 2)])] *)
Definition diffs (c p : rgb) : Z :=
  let '(r, g, b) := c in
  let '(r', g', b') := p in
  Z.abs (r - r') + Z.abs (g - g') + Z.abs (b - b').

(** The [for] loop of [_matchcolor] with its two locals; [bestcol] is
    unbound until the first improvement. *)
Fixpoint matchcolor_loop (c : rgb) (pal : list palette_entry)
    (best : Z) (bestcol : option Z) : result Z :=
  match pal with
  | [] => match bestcol with Some i => Ok i | None => Raise UnboundLocalError end
  | (colorid, _, crgb) :: pal' =>
      let d := diffs c crgb in
      if d =? 0 then Ok colorid
      else if d <? best then matchcolor_loop c pal' d (Some colorid)
      else matchcolor_loop c pal' best bestcol
  end.

Definition direct_token (c : rgb) : string :=
  let '(r, g, b) := c in
  ("0x2" ++ py_hex02 r ++ py_hex02 g ++ py_hex02 b)%string.

Definition _matchcolor (palette : list palette_entry) (c : rgb) (direct : bool)
    : result color :=
  if direct then Ok (ColorHex (direct_token c))
  else ColorId <$> matchcolor_loop c palette 768 None.

(** Channels as the palette file and the decoded bitmaps deliver them. *)
Definition channel (v : Z) : Prop := 0 <= v <= 255.
Definition valid_rgb (c : rgb) : Prop :=
  channel c.1.1 ∧ channel c.1.2 ∧ channel c.2.
Definition entry_id (e : palette_entry) : Z := e.1.1.
Definition entry_rgb (e : palette_entry) : rgb := e.2.
Definition valid_palette (pal : list palette_entry) : Prop :=
  Forall (fun e => valid_rgb (entry_rgb e)) pal.

(** What the two locals of [_matchcolor] hold once the entries of [pre]
    have been scanned without an exact match. *)
Definition scanned (c : rgb) (pre : list palette_entry) (best : Z) (bestcol : option Z) : Prop :=
  (∀ e, e ∈ pre → best <= diffs c (entry_rgb e) ∧ diffs c (entry_rgb e) ≠ 0) ∧
  match bestcol with
  | None => best = 768
  | Some id =>
      ∃ (i : nat) (e : palette_entry),
        pre !! i = Some e ∧ entry_id e = id ∧ diffs c (entry_rgb e) = best ∧
        ∀ (j : nat) e', (j < i)%nat → pre !! j = Some e' → best < diffs c (entry_rgb e')
  end.

(** The entry at index [i] is the earliest one at minimal distance. *)
Definition earliest_nearest (c : rgb) (pal : list palette_entry) (i : nat) (e : palette_entry) : Prop :=
  pal !! i = Some e ∧
  (∀ e', e' ∈ pal → diffs c (entry_rgb e) <= diffs c (entry_rgb e')) ∧
  (∀ (j : nat) e', (j < i)%nat → pal !! j = Some e' →
                   diffs c (entry_rgb e) < diffs c (entry_rgb e')).

(** ** Sector and wall model *)

Definition point : Type := Q * Q.

Definition Qlt_bool (x y : Q) : bool := negb (Qle_bool y x).

(** A wall as [_levparse] builds it, slot by slot:
    [[start, end, midtx, midx, midy, toptx, topx, topy, bottx, botx, boty,
    adjoin]]. *)
Record raw_wall : Type := RawWall {
  w_start : point;  w_end : point;
  w_midtx : string; w_midx : Q; w_midy : Q;
  w_toptx : string; w_topx : Q; w_topy : Q;
  w_bottx : string; w_botx : Q; w_boty : Q;
  w_adjoin : Z
}.

(** A sector as [_levparse] builds it, slots 0 to 11. *)
Record raw_sector : Type := RawSector {
  s_walls : list raw_wall;
  s_flrtx : string;  s_flrx : Q;  s_flry : Q;
  s_ceiltx : string; s_ceilx : Q; s_ceily : Q;
  s_flralt : Q; s_ceilalt : Q;
  s_opensky : bool; s_openflr : bool; s_nowalls : bool
}.

(** A refined wall:
    [[start, end, bottom alt, top alt, texture, offset x, offset y,
    anchored from its top?]]. *)
Record wall : Type := Wall {
  r_start : point; r_end : point;
  r_bot : Q; r_top : Q;
  r_tex : string; r_ox : Q; r_oy : Q;
  r_topanchor : bool
}.

(** A sector as [_levrefine] leaves it: slot 0 replaced by the refined
    walls, slots 1 to 11 untouched, the area appended as slot 12 and the
    original wall end points as slot 13. *)
Record sector : Type := Sector {
  walls : list wall;
  flrtx : string;  flrox : Q; flroy : Q;
  ceiltx : string; ceilox : Q; ceiloy : Q;
  flralt : Q; ceilalt : Q;
  opensky : bool; openflr : bool; nowalls : bool;
  area : Q;
  origwalls : list (point * point)
}.

(** The positional view of a refined sector, for code that indexes it. *)
Inductive pyval : Type :=
| VWalls (ws : list wall)
| VStr (s : string)
| VFloat (q : Q)
| VBool (b : bool)
| VSegs (ws : list (point * point)).

Definition sector_slots (e : sector) : list pyval :=
  [ VWalls (walls e);
    VStr (flrtx e); VFloat (flrox e); VFloat (flroy e);
    VStr (ceiltx e); VFloat (ceilox e); VFloat (ceiloy e);
    VFloat (flralt e); VFloat (ceilalt e);
    VBool (opensky e); VBool (openflr e); VBool (nowalls e);
    VFloat (area e);
    VSegs (origwalls e) ].

(** ** Polygon area *)

Definition Qsum (l : list Q) : Q := fold_left Qplus l 0%Q.

Definition cross_term (a b : point) : Q := (a.1 * b.2 - a.2 * b.1)%Q.

(** [[crd[c][0]*crd[c+1][1] - crd[c][1]*crd[c+1][0] for c in range(len(crd)-1)]] *)
Fixpoint shoelace (crd : list point) : list Q :=
  match crd with
  | a :: (b :: _) as tl => cross_term a b :: shoelace tl
  | _ => []
  end.

Definition _polygonarea (crd : list point) : result Q :=
  let sumlist := shoelace crd in
  last ← py_index crd (-1);
  first ← py_index crd 0;
  let sumlist := sumlist ++ [cross_term last first] in
  Ok (Qsum sumlist / 2)%Q.

(** ** Wall refiner *)

(** The body of the inner loop of [_levrefine]: the refined walls one raw
    wall appends to [swalls]. *)
Definition refine_wall (lev : list raw_sector) (sec : raw_sector) (w : raw_wall)
    : result (list wall) :=
  if w_adjoin w =? -1 then
    Ok [Wall (w_start w) (w_end w) (s_flralt sec) (s_ceilalt sec)
             (w_midtx w) (w_midx w) (w_midy w) false]
  else
    let adsect := w_adjoin w in
    ad ← py_index lev adsect;
    let adflr := s_flralt ad in
    let adceil := s_ceilalt ad in
    let step :=
      if Qlt_bool (s_flralt sec) adflr
      then [Wall (w_start w) (w_end w) (s_flralt sec) adflr
                 (w_bottx w) (w_botx w) (w_boty w) false]
      else [] in
    let overhang :=
      if Qlt_bool adceil (s_ceilalt sec)
      then [Wall (w_start w) (w_end w) adceil (s_ceilalt sec)
                 (w_toptx w) (w_topx w) (w_topy w) true]
      else [] in
    Ok (step ++ overhang).

(** The walls a raw wall can give rise to: the one of an unadjoined wall,
    and the step and the overhang of a wall adjoined to [ad]. *)
Definition mid_wall (sec : raw_sector) (w : raw_wall) : wall :=
  Wall (w_start w) (w_end w) (s_flralt sec) (s_ceilalt sec)
       (w_midtx w) (w_midx w) (w_midy w) false.
Definition step_wall (sec ad : raw_sector) (w : raw_wall) : wall :=
  Wall (w_start w) (w_end w) (s_flralt sec) (s_flralt ad)
       (w_bottx w) (w_botx w) (w_boty w) false.
Definition overhang_wall (sec ad : raw_sector) (w : raw_wall) : wall :=
  Wall (w_start w) (w_end w) (s_ceilalt ad) (s_ceilalt sec)
       (w_toptx w) (w_topx w) (w_topy w) true.

(** The inner loop, with its two collectors. *)
Fixpoint refine_walls (lev : list raw_sector) (sec : raw_sector)
    (ws : list raw_wall) (swalls : list wall) (origw : list (point * point))
    : result (list wall * list (point * point)) :=
  match ws with
  | [] => Ok (swalls, origw)
  | w :: ws' =>
      let origw := origw ++ [(w_start w, w_end w)] in
      new ← refine_wall lev sec w;
      refine_walls lev sec ws' (swalls ++ new) origw
  end.

(** One turn of the outer loop.  The source rewrites [lev[scid]] in place;
    the rewrite replaces slot 0 and appends slots 12 and 13, while a
    look-up through an adjoin reads slots 7 and 8 only, so the altitudes
    read from [lev[adsect]] are those of the input whether or not that
    sector has been rewritten already. *)
Definition refine_sector (lev : list raw_sector) (sec : raw_sector) : result sector :=
  let coords := map w_start (s_walls sec) in
  a ← _polygonarea coords;
  let sarea := Qabs a in
  '(swalls, origw) ← refine_walls lev sec (s_walls sec) [] [];
  Ok (Sector swalls
        (s_flrtx sec) (s_flrx sec) (s_flry sec)
        (s_ceiltx sec) (s_ceilx sec) (s_ceily sec)
        (s_flralt sec) (s_ceilalt sec)
        (s_opensky sec) (s_openflr sec) (s_nowalls sec)
        sarea origw).

Definition _levrefine (lev : list raw_sector) : result (list sector) :=
  mapR (refine_sector lev) lev.

(** ** Sector ordering in [dfmap] *)

(** [list.sort]: stable; with [reverse=True] the order is descending and
    equal keys still keep their input order. *)
Fixpoint insert_by {A : Type} (le : A → A → bool) (x : A) (l : list A) : list A :=
  match l with
  | [] => [x]
  | y :: l' => if le y x then y :: insert_by le x l' else x :: l
  end.

Definition py_sort {A K : Type} (leb : K → K → bool) (key : A → K)
    (reverse : bool) (l : list A) : list A :=
  let le a b := if reverse then leb (key b) (key a) else leb (key a) (key b) in
  fold_left (fun acc x => insert_by le x acc) l [].

(** [False <= True] on Python booleans. *)
Definition bool_leb (a b : bool) : bool := implb a b.

(** [lambda e: e[10]] *)
Definition sort_key (e : sector) : bool := openflr e.

(** [lev.sort(key=lambda e: e[10], reverse=(not prioritylarge))] *)
Definition sort_sectors (prioritylarge : bool) (lev : list sector) : list sector :=
  py_sort bool_leb sort_key (negb prioritylarge) lev.

(** ** Arithmetic that may raise *)

(** [a / b] on floats. *)
Definition py_div (a b : Q) : result Q :=
  if Qeq_bool b 0 then Raise ZeroDivisionError else Ok (a / b)%Q.

(** [a % b] on ints; the result takes the sign of [b], as [Z.modulo] does. *)
Definition py_mod (a b : Z) : result Z :=
  if b =? 0 then Raise ZeroDivisionError else Ok (a mod b).

(** [round(x, n)]: to [n] decimals. *)
Definition py_round_n (x : Q) (n : Z) : Q :=
  (inject_Z (py_round (x * 10 ^ n)) / 10 ^ n)%Q.

(** ** Constants *)

Definition TILINGSTEPS : Q := 2 # 100.
Definition PXPERDFU : Q := 8.
Definition LEGOPLATEHEIGHT : Q := 4 # 10.
Definition REDUCTION : Q := 8 # 10.

(** [LEGOPLATEHEIGHT * REDUCTION], the increment of the height loop. *)
Definition plate_step : Q := (LEGOPLATEHEIGHT * REDUCTION)%Q.

(** ** Wall plates in [dfmap] *)

(** A decoded texture, as the bitmap collaborator hands it over. *)
Record image : Type := Image {
  size : Z * Z;
  getpixel : Z * Z → rgb
}.

(** A unit plate [(x, y, height, color)]; the height is still in studs. *)
Definition plate : Type := Z * Z * Q * color.

(** [while curheight <= top: ...] for one tile of one wall.  The recursion
    is bounded by [fuel]; [None] means the bound was reached. *)
Fixpoint wall_column (fuel : nat) (palette : list palette_entry) (directrgb : bool)
    (zscale : Q) (teximg : image) (texposx : Z) (tile : Z * Z)
    (bot top offy : Q) (topanchor : bool)
    (curheight : Q) (legoplates : list plate) : option (result (list plate)) :=
  match fuel with
  | O => None
  | S fuel' =>
      if Qle_bool curheight top then
        let vertpos := if topanchor then (top - curheight)%Q else (bot - curheight)%Q in
        let vertpos := (vertpos * zscale)%Q in
        let vertpos := (vertpos + offy)%Q in
        let vertpos := (vertpos * PXPERDFU)%Q in
        match py_mod (py_int vertpos) (size teximg).2 with
        | Raise e => Some (Raise e)
        | Ok texposy =>
            let targcol := getpixel teximg (texposx, texposy) in
            match _matchcolor palette targcol directrgb with
            | Raise e => Some (Raise e)
            | Ok legocol =>
                let legoplates := legoplates ++ [(tile.1, tile.2, curheight, legocol)] in
                let curheight := (curheight + LEGOPLATEHEIGHT * REDUCTION)%Q in
                wall_column fuel' palette directrgb zscale teximg texposx tile
                            bot top offy topanchor curheight legoplates
            end
        end
      else Some (Ok legoplates)
  end.

(** [bot = round(pbot / zscale, rounding)], [top = round(ptop / zscale, rounding)] *)
Definition wall_extent (zscale : Q) (rounding : Z) (w : wall) : result (Q * Q) :=
  b ← py_div (r_bot w) zscale;
  t ← py_div (r_top w) zscale;
  Ok (py_round_n b rounding, py_round_n t rounding).

(** A bound on the number of turns of the height loop from [bot] to [top]. *)
Definition column_fuel (bot top : Q) : nat :=
  S (S (Z.to_nat (Qfloor ((top - bot) / (LEGOPLATEHEIGHT * REDUCTION))))).

(** The plates one tile of a refined wall appends to [legoplates]. *)
Definition wall_tile_plates (palette : list palette_entry) (directrgb : bool)
    (zscale : Q) (rounding : Z) (teximg : image) (texposx : Z)
    (w : wall) (tile : Z * Z) (legoplates : list plate)
    : option (result (list plate)) :=
  match wall_extent zscale rounding w with
  | Raise e => Some (Raise e)
  | Ok (bot, top) =>
      wall_column (column_fuel bot top) palette directrgb zscale teximg texposx tile
                  bot top (r_oy w) (r_topanchor w) bot legoplates
  end.

(** ** Line tiling *)

Section LineTiling.
(** [x ** 0.5], the platform's square root. *)
Variable fsqrt : Q → Q.

(** [_gettiles] with the module constant [TILINGSTEPS] as an argument. *)
Definition gettiles_with (steps : Q) (p1 p2 : point) : result (gset (Z * Z)) :=
  let xs := (p2.1 - p1.1)%Q in
  let ys := (p2.2 - p1.2)%Q in
  let length := fsqrt (xs ^ 2 + ys ^ 2)%Q in
  if Qlt_bool length (1 # 100) then
    Ok {[ (py_int p1.1, py_int p1.2) ]}
  else
    divisor ← py_div length steps;
    let divisor := if Qlt_bool divisor 1 then 1%Q else divisor in
    let stepx := (xs / divisor)%Q in
    let stepy := (ys / divisor)%Q in
    let points :=
      map (fun e => (p1.1 + stepx * inject_Z e, p1.2 + stepy * inject_Z e)%Q)
          (py_range 0 (py_int divisor)) in
    let points := points ++ [p2] in
    Ok (list_to_set (map (fun p : point => (py_int p.1, py_int p.2)) points)).

Definition _gettiles (p1 p2 : point) : result (gset (Z * Z)) :=
  gettiles_with TILINGSTEPS p1 p2.
End LineTiling.

(** The unit square of the grid that holds a point: [i <= x < i + 1] and
    [j <= y < j + 1]. *)
Definition cell_contains (c : Z * Z) (p : point) : Prop :=
  (inject_Z c.1 <= p.1 < inject_Z c.1 + 1)%Q ∧
  (inject_Z c.2 <= p.2 < inject_Z c.2 + 1)%Q.

(** ** Polygon tiling *)

Definition ccw (A B C : point) : bool :=
  Qlt_bool ((B.2 - A.2) * (C.1 - A.1)) ((C.2 - A.2) * (B.1 - A.1)).

Definition _intersect (A B C D : point) : bool :=
  negb (eqb (ccw A C D) (ccw B C D)) && negb (eqb (ccw A B C) (ccw A B D)).

(** [for wa, wb in walls: if _intersect(...): crosscounter += 1] *)
Definition count_crossings (ws : list (point * point)) (a b : point) (crosscounter : Z) : Z :=
  fold_left (fun c w => if _intersect a b w.1 w.2 then c + 1 else c) ws crosscounter.

(** The scan of one column, bottom upward; [crosscounter] runs on from
    cell to cell. *)
Fixpoint column_scan (ws : list (point * point)) (offsetx offsety : Q)
    (column : Z) (ys : list Z) (crosscounter : Z) (tiles : list (Z * Z))
    : list (Z * Z) :=
  match ys with
  | [] => tiles
  | y :: ys' =>
      let chlinea := (inject_Z column + offsetx, inject_Z y + offsety)%Q in
      let chlineb := (inject_Z column + offsetx, inject_Z y + offsety + 1)%Q in
      let crosscounter := count_crossings ws chlinea chlineb crosscounter in
      let tiles := if crosscounter mod 2 =? 0 then tiles else tiles ++ [(column, y)] in
      column_scan ws offsetx offsety column ys' crosscounter tiles
  end.

(** The four extents [(minx, miny, maxx, maxy)]. *)
Definition extents (ws : list (point * point)) : result (Z * Z * Z * Z) :=
  let xc := map (fun e => e.1.1) ws ++ map (fun e => e.2.1) ws in
  let yc := map (fun e => e.1.2) ws ++ map (fun e => e.2.2) ws in
  mnx ← py_minQ xc;
  mny ← py_minQ yc;
  mxx ← py_maxQ xc;
  mxy ← py_maxQ yc;
  Ok (py_int mnx - 2, py_int mny - 2, py_int mxx + 3, py_int mxy + 3).

Definition tilepolygon_at (ws : list (point * point)) (offsetx offsety : Q)
    : result (list (Z * Z)) :=
  '(minx, miny, maxx, maxy) ← extents ws;
  Ok (fold_left
        (fun tiles column =>
           column_scan ws offsetx offsety column (py_range miny maxy) 0 tiles)
        (py_range minx maxx) []).

(** The call with the default offsets, as [dfmap] makes it. *)
Definition _tilepolygon (ws : list (point * point)) : result (list (Z * Z)) :=
  tilepolygon_at ws (1 # 2) (- (1 # 2)).


(** The two ends of the probe of cell [(column, y)] under the default
    offsets; the upper end is the cell's probe point
    [(column + 1/2, y + 1/2)]. *)
Definition probe_start (column y : Z) : point :=
  (inject_Z column + (1 # 2), inject_Z y + - (1 # 2))%Q.
Definition probe_end (column y : Z) : point :=
  (inject_Z column + (1 # 2), inject_Z y + - (1 # 2) + 1)%Q.

(** [crosscounter] after the probe of cell [(column, y)], from its value
    [c] before. *)
Definition probe_step (ws : list (point * point)) (column c y : Z) : Z :=
  count_crossings ws (probe_start column y) (probe_end column y) c.


(** The value of [crosscounter] once the cells [miny .. y] of a column
    have been probed. *)
Definition running_crossings (ws : list (point * point)) (column miny y : Z) : Z :=
  fold_left (probe_step ws column) (py_range miny (y + 1)) 0.

(** The parity of the number of segments a probe crosses. *)
Definition crossing_parity (ws : list (point * point)) (a b : point) : bool :=
  fold_right (fun w acc => xorb (_intersect a b w.1 w.2) acc) false ws.

(** ** Brick packer *)

Definition cell : Type := Z * Z * Z.

(** A catalog row [(x, y, z, DAT)]. *)
Definition part : Type := Z * Z * Z * string.

(** A placed part [(pcx, pcy, pch, DAT, color, rotated90?)]. *)
Definition placed : Type := Q * Q * Q * string * color * bool.

(** The dictionary [map]: Python keeps the keys in insertion order, and
    [list(map.keys())] walks them in that order, so the dictionary is an
    association list with one entry per key. *)
Definition dict : Type := list (cell * color).

(** [map[k] = v]: an existing key keeps its place. *)
Fixpoint dict_set (m : dict) (k : cell) (v : color) : dict :=
  match m with
  | [] => [(k, v)]
  | (k', v') :: m' =>
      if decide (k' = k) then (k, v) :: m' else (k', v') :: dict_set m' k v
  end.

Fixpoint dict_get (m : dict) (k : cell) : option color :=
  match m with
  | [] => None
  | (k', v') :: m' => if decide (k' = k) then Some v' else dict_get m' k
  end.

(** [del map[k]]: a missing key raises [KeyError]. *)
Fixpoint dict_del (m : dict) (k : cell) : result dict :=
  match m with
  | [] => Raise KeyError
  | (k', v') :: m' =>
      if decide (k' = k) then Ok m'
      else m'' ← dict_del m' k; Ok ((k', v') :: m'')
  end.

Definition dict_keys (m : dict) : list cell := map fst m.

(** A loop whose body may raise. *)
Fixpoint foldR {A S : Type} (f : S → A → result S) (l : list A) (s : S) : result S :=
  match l with
  | [] => Ok s
  | a :: l' => s' ← f s a; foldR f l' s'
  end.

(** The cells a part anchored at [(x, y, h)] would take: [cz] outermost,
    then [cy], then [cx]. *)
Definition part_coords (x y h partx party partz : Z) : list cell :=
  cz ← py_range h (h + partz);
  cy ← py_range y (y + party);
  cx ← py_range x (x + partx);
  [(cx, cy, cz)].

(** A placed part together with the [coords] it was placed on. *)
Definition placement : Type := placed * list cell.

(** One turn of the inner loop of [brickify].  A stored color is never
    [None], so the comparison of a missing cell's [None] with [ccolor] is
    false. *)
Definition try_place (p : part) (st : dict * list placement) (key : cell)
    : result (dict * list placement) :=
  let '(map, assembly) := st in
  let '(partx, party, partz, partdat) := p in
  let '(x, y, h) := key in
  match dict_get map key with
  | None => Ok st
  | Some ccolor =>
      let coords := part_coords x y h partx party partz in
      let check := List.map (fun c => bool_decide (dict_get map c = Some ccolor)) coords in
      if forallb id check then
        let pcx := (inject_Z x + inject_Z partx / 2)%Q in
        let pcy := (inject_Z y + inject_Z party / 2)%Q in
        let pch := (inject_Z h + inject_Z partz / 2)%Q in
        let pch := if partz =? 3 then (pch + 1)%Q else pch in
        let pflip := partx <? party in
        let assembly := assembly ++ [((pcx, pcy, pch, partdat, ccolor, pflip), coords)] in
        map ← foldR dict_del coords map;
        Ok (map, assembly)
      else Ok st
  end.

(** One catalog part against a snapshot of the keys. *)
Definition part_pass (st : dict * list placement) (p : part)
    : result (dict * list placement) :=
  foldR (try_place p) (dict_keys st.1) st.

(** Heights from studs to plates: [round(h / pltheight)]. *)
Definition to_plates (pltheight : Q) (grid : list plate) : result (list (cell * color)) :=
  mapR (fun pl : plate =>
          let '(x, y, h, color) := pl in
          q ← py_div h pltheight;
          Ok ((x, y, py_round q), color)) grid.

Definition build_map (grid : list (cell * color)) : dict :=
  fold_left (fun m kc => dict_set m kc.1 kc.2) grid [].

(** [brickify], keeping with every placed part the cells it consumed. *)
Definition brickify_trace (grid : list plate) (parts : list part) (pltheight : Q)
    : result (list placement) :=
  grid ← to_plates pltheight grid;
  let xs := map (fun c : cell * color => c.1.1.1) grid in
  let ys := map (fun c : cell * color => c.1.1.2) grid in
  let hs := map (fun c : cell * color => c.1.2) grid in
  minx ← py_min xs;
  miny ← py_min ys;
  maxx ← py_max xs;
  maxy ← py_max ys;
  minh ← py_min hs;
  maxh ← py_max hs;
  let map := build_map grid in
  st ← foldR part_pass parts (map, []);
  Ok st.2.

Definition brickify (grid : list plate) (parts : list part) (pltheight : Q)
    : result (list placed) :=
  map fst <$> brickify_trace grid parts pltheight.

(** The grid after the height conversion, as a set of cells with the color
    of the last plate written to each. *)
Definition grid_cells (pltheight : Q) (grid : list plate) : result dict :=
  build_map <$> to_plates pltheight grid.

(** What holds of the packer's state [(map, assembly)] at every turn, with
    respect to the map [m0] it started from: the keys are distinct, the
    keys still present and the cells consumed so far make up the keys of
    [m0], the colors still present are those of [m0], and every placed part
    carries the color its cells had in [m0]. *)
Definition packing_inv (m0 : dict) (st : dict * list placement) : Prop :=
  NoDup (dict_keys st.1) ∧
  dict_keys st.1 ++ concat (map snd st.2) ≡ₚ dict_keys m0 ∧
  (∀ c v, dict_get st.1 c = Some v → dict_get m0 c = Some v) ∧
  (∀ pl coords c, (pl, coords) ∈ st.2 → c ∈ coords → dict_get m0 c = Some pl.1.2).

(** A trace entry is a catalog part laid with its anchor on a cell: the
    cells are the block of the part's size from the anchor on, and the
    placed part records the block's centre (one plate higher for a part
    three plates high), the part's identifier and whether it is longer in
    [y] than in [x]. *)
Definition placement_of (parts : list part) (pc : placement) : Prop :=
  ∃ x y h partx party partz partdat ccolor,
    (partx, party, partz, partdat) ∈ parts ∧
    pc.2 = part_coords x y h partx party partz ∧
    pc.1 = ((inject_Z x + inject_Z partx / 2)%Q,
            (inject_Z y + inject_Z party / 2)%Q,
            (if partz =? 3 then inject_Z h + inject_Z partz / 2 + 1
             else inject_Z h + inject_Z partz / 2)%Q,
            partdat, ccolor, partx <? party).

(** ** Model writer *)

Definition nl : string := String (ascii_of_nat 10) EmptyString.
Definition dquote : string := String (ascii_of_nat 34) EmptyString.

(** A placed part after the output scaling: integer coordinates. *)
Definition scaled : Type := Z * Z * Z * string * color * bool.

(** [str.format] on a color: an identifier prints in decimal, a token as
    it is. *)
Definition show_color (c : color) : string :=
  match c with ColorId i => py_str i | ColorHex s => s end.

Definition header (outfile : string) : string :=
  ("0 Untitled" ++ nl ++ "0 Name: " ++ outfile ++ nl ++ "0 Author: MILSGen" ++ nl
   ++ "0 Unofficial Model" ++ nl
   ++ "0 ROTATION CENTER 0 0 0 1 " ++ dquote ++ "Custom" ++ dquote ++ nl
   ++ "0 ROTATION CONFIG 0 0" ++ nl)%string.

(** The [for] loop of [_formatoutput], appending to [out]. *)
Fixpoint format_parts (parts : list scaled) (out : list string) : list string :=
  match parts with
  | [] => out
  | (x, y, h, dat, color, rotated) :: parts' =>
      let locstr :=
        ("1 " ++ show_color color ++ " " ++ py_str x ++ " " ++ py_str h ++ " "
         ++ py_str y ++ " ")%string in
      let locstr :=
        if rotated : bool then (locstr ++ "0 0 -1 0 1 0 1 0 0 ")%string
        else (locstr ++ "1 0 0 0 1 0 0 0 1 ")%string in
      let locstr := (locstr ++ dat ++ nl)%string in
      format_parts parts' (out ++ [locstr])
  end.

(** [''.join(out)] *)
Definition join (out : list string) : string :=
  fold_right String.append EmptyString out.

Definition _formatoutput (parts : list scaled) (outfile : string) : string :=
  let out := [header outfile] in
  let out := format_parts parts out in
  let out := out ++ [("0" ++ nl)%string] in
  join out.

(** [scaledpartset] in [dfmap]. *)
Definition scale_part (outputscale : Q * Q * Q) (p : placed) : scaled :=
  let '(x, y, h, dat, color, rotated) := p in
  let '(sx, sy, sh) := outputscale in
  (py_round (x * sx), py_round (y * sy), py_round (h * sh), dat, color, rotated).

(** The two rotation matrices of the output format. *)
Definition identity_matrix : string := "1 0 0 0 1 0 0 0 1".
Definition swap_matrix : string := "0 0 -1 0 1 0 1 0 0".

(** The line of the output format for one part, after the specification:
    [1 <color> <x> <height> <y> <rotationMatrix 9 numbers> <partIdentifier>]. *)
Definition spec_line (p : scaled) : string :=
  let '(x, y, h, dat, color, rotated) := p in
  ("1 " ++ show_color color ++ " " ++ py_str x ++ " " ++ py_str h ++ " " ++ py_str y
   ++ " " ++ (if rotated : bool then swap_matrix else identity_matrix) ++ " " ++ dat
   ++ nl)%string.

(** The number of line ends in a text. *)
Fixpoint count_nl (s : string) : nat :=
  match s with
  | EmptyString => 0
  | String a s' => (if Ascii.eqb a (ascii_of_nat 10) then 1 else 0) + count_nl s'
  end.

(** ** Sample data *)

Definition sample_wall (a b : point) (adjoin : Z) : raw_wall :=
  RawWall a b "MID.BM" 0 0 "TOP.BM" 0 0 "BOT.BM" 0 0 adjoin.

(** A rectangular room [[x0, x1] x [y0, y1]] whose four walls all carry
    the same adjoin. *)
Definition room (x0 y0 x1 y1 flr ceil : Q) (adjoin : Z) : raw_sector :=
  RawSector
    [ sample_wall (x0, y0) (x1, y0) adjoin; sample_wall (x1, y0) (x1, y1) adjoin;
      sample_wall (x1, y1) (x0, y1) adjoin; sample_wall (x0, y1) (x0, y0) adjoin ]
    "FLOOR.BM" 0 0 "CEIL.BM" 0 0 flr ceil false false false.

(** A 4 x 4 room and a 1 x 1 room, both closed. *)
Definition two_rooms : list raw_sector :=
  [ room 0 0 4 4 0 8 (-1); room 10 0 11 1 0 8 (-1) ].

(** Two rooms, the second with walls adjoined to [-2]. *)
Definition wrapped_level : list raw_sector :=
  [ room 0 0 4 4 2 6 (-1); room 4 0 8 4 0 8 (-2) ].

(** A square root rounded down to six decimals, to run the line tiling on
    sample segments. *)
Definition sqrt_down (q : Q) : Q :=
  (inject_Z (Z.sqrt (Qfloor (q * 1000000000000))) / 1000000)%Q.

(** The square [[0, 2] x [0, 2]] as four boundary segments. *)
Definition square2 : list (point * point) :=
  [ ((0, 0), (2, 0)); ((2, 0), (2, 2)); ((2, 2), (0, 2)); ((0, 2), (0, 0)) ]%Q.

(** Three plates, two of one color side by side and one above, and a
    catalog of a 2 x 1 plate and the 1 x 1 plate. *)
Definition sample_grid : list plate :=
  [ (0, 0, 0%Q, ColorId 1); (1, 0, 0%Q, ColorId 1); (0, 0, (4 # 10)%Q, ColorId 2) ].
Definition sample_catalog : list part :=
  [ (2, 1, 1, "3023.dat"%string); (1, 1, 1, "3024.dat"%string) ].

(** A palette of four colors. *)
Definition sample_palette : list palette_entry :=
  [ (0, "05131D", (5, 19, 29)); (15, "FFFFFF", (255, 255, 255));
    (4, "C91A09", (201, 26, 9)); (1, "0055BF", (0, 85, 191)) ]%string.

(** A one-pixel black texture. *)
Definition black_pixel : image := Image (1, 1) (fun _ => (0, 0, 0)).

(** A refined wall whose top equals its bottom. *)
Definition flat_wall : wall :=
  Wall (0, 0)%Q (4, 0)%Q 2 2 "MID.BM" 0 0 false.

(** Two rooms adjoined to each other, the second with a higher floor and a
    lower ceiling. *)
Definition stepped_level : list raw_sector :=
  [ room 0 0 4 4 0 8 1; room 4 0 8 4 2 6 0 ].

(** One room whose walls are adjoined to a sector that does not exist. *)
Definition broken_level : list raw_sector := [ room 0 0 4 4 0 8 5 ].

(** ** Sector flags in [_levparse] *)

(** [bool(n)] on an int. *)
Definition py_bool (n : Z) : bool := negb (n =? 0).

(** The [FLAGS] line: [(no sky, no floor, no walls)] from the flag value,
    [bool(flagvalue % 2)], [bool(flagvalue % 256 // 128)] and
    [bool(flagvalue % 2048 // 1024)]. *)
Definition sector_flags (flagvalue : Z) : bool * bool * bool :=
  (py_bool (flagvalue mod 2),
   py_bool (flagvalue mod 256 / 128),
   py_bool (flagvalue mod 2048 / 1024)).

(** ** Part catalog in [_partparse] *)

(** The loop of [_partparse] over the rows of the file, once split and
    converted to [(x, y, z, dat)]: every row is appended, and its
    90-degree rotation too when it is not square. *)
Fixpoint partparse_collect (rows : list part) (parts : list part) : list part :=
  match rows with
  | [] => parts
  | (x, y, z, dat) :: rows' =>
      let parts := parts ++ [(x, y, z, dat)] in
      let parts := if x =? y then parts else parts ++ [(y, x, z, dat)] in
      partparse_collect rows' parts
  end.

(** The three [parts.sort(key=lambda k: k[i], reverse=True)] for
    [i = 0, 1, 2]. *)
Definition partparse_sort (parts : list part) : list part :=
  let parts := py_sort Z.leb (fun k : part => k.1.1.1) true parts in
  let parts := py_sort Z.leb (fun k : part => k.1.1.2) true parts in
  py_sort Z.leb (fun k : part => k.1.2) true parts.

(** [_partparse] from the converted rows on. *)
Definition partparse_rows (rows : list part) : list part :=
  partparse_sort (partparse_collect rows []).

(** The order a list is in after a descending stable sort on [key], if it
    was in the order [R] before: by [key] first, ties as in [R]. *)
Definition refined_order {A : Type} (key : A → Z) (R : A → A → Prop) (a b : A) : Prop :=
  key b < key a ∨ (key b = key a ∧ R a b).

(** Descending order on catalog parts: by height, then by the second
    dimension, then by the first. *)
Definition part_ge (a b : part) : Prop :=
  b.1.2 < a.1.2 ∨
  (b.1.2 = a.1.2 ∧
   (b.1.1.2 < a.1.1.2 ∨ (b.1.1.2 = a.1.1.2 ∧ b.1.1.1 <= a.1.1.1))).

(** ** Reading a direct colour token back *)

(** The value of a lower-case hexadecimal digit. *)
Definition hex_digit (a : ascii) : option Z :=
  let n := Z.of_nat (nat_of_ascii a) in
  if (48 <=? n) && (n <=? 57) then Some (n - 48)
  else if (97 <=? n) && (n <=? 102) then Some (n - 87)
  else None.

(** The value of two hexadecimal digits. *)
Definition read_hex02 (s : string) : option Z :=
  match s with
  | String a (String b EmptyString) =>
      x ← hex_digit a; y ← hex_digit b; Some (16 * x + y)
  | _ => None
  end.

(** The triplet of a token [0x2RRGGBB]. *)
Definition read_token (s : string) : option rgb :=
  match s with
  | String "0" (String "x" (String "2"
      (String r1 (String r0 (String g1 (String g0 (String b1 (String b0 EmptyString)))))))) =>
      r ← read_hex02 (String r1 (String r0 EmptyString));
      g ← read_hex02 (String g1 (String g0 EmptyString));
      b ← read_hex02 (String b1 (String b0 EmptyString));
      Some (r, g, b)
  | _ => None
  end.

(** ** The number of turns of the wall height loop *)


(** ** The order of the tiles of a polygon *)

(** Column by column, and upward within a column. *)
Definition tile_lt (a b : Z * Z) : Prop :=
  a.1 < b.1 ∨ (a.1 = b.1 ∧ a.2 < b.2).

(** ** Output scale *)

(** The default of [dfmap]'s parameter [outputscale]. *)
Definition default_outputscale : Q * Q * Q := (20, 20, -8)%Q.

(** ** The order of the keys of [map] in [brickify] *)

(** A list without its repetitions, every element at its first place. *)
Definition first_occurrences (l : list cell) : list cell :=
  rev (remove_dups (rev l)).

(** * Properties *)

(** ** The [result] monad and Python built-ins *)

Lemma Qlt_bool_iff (x y : Q) : Qlt_bool x y = true ↔ (x < y)%Q.
Proof.
  unfold Qlt_bool. rewrite negb_true_iff, <- not_true_iff_false, Qle_bool_iff.
  split; [apply Qnot_le_lt | apply Qlt_not_le].
Qed.

Lemma Qlt_bool_false_iff (x y : Q) : Qlt_bool x y = false ↔ ¬ (x < y)%Q.
Proof. by rewrite <- Qlt_bool_iff, not_true_iff_false. Qed.

Lemma mapR_Ok {A B : Type} (f : A → result B) (l : list A) (out : list B) :
  mapR f l = Ok out → Forall2 (fun a b => f a = Ok b) l out.
Proof.
  revert out. induction l as [|a l IH]; simpl; intros out H.
  - injection H as <-. constructor.
  - destruct (f a) as [b|e] eqn:Hfa; simpl in H; [|done].
    destruct (mapR f l) as [bs|e] eqn:Hl; simpl in H; [|done].
    injection H as <-. constructor; [done | by apply IH].
Qed.

Lemma mapR_Raise {A B : Type} (f : A → result B) (l : list A) (a : A) (e : pyerr) :
  a ∈ l → f a = Raise e → ∃ e', mapR f l = Raise e'.
Proof.
  intros Ha Hfa. induction l as [|a' l IH]; [by apply elem_of_nil in Ha|].
  simpl. destruct (f a') as [b|e'] eqn:Hfa'; simpl; [|by eexists].
  apply elem_of_cons in Ha as [->|Ha]; [congruence|].
  destruct (IH Ha) as [e' ->]. simpl. by eexists.
Qed.

Lemma py_index_in_range {A : Type} (l : list A) (i : Z) :
  0 <= i < Z.of_nat (length l) →
  ∃ a, l !! Z.to_nat i = Some a ∧ py_index l i = Ok a.
Proof.
  intros Hi. unfold py_index.
  destruct (Z.ltb_spec i 0); [lia|].
  destruct (Z.leb_spec 0 i); [|lia]. destruct (Z.ltb_spec i (Z.of_nat (length l))); [|lia].
  simpl. destruct (lookup_lt_is_Some_2 l (Z.to_nat i)) as [a Ha]; [lia|].
  rewrite Ha. eauto.
Qed.

(** A negative index from [-len(l)] on counts from the end. *)
Lemma py_index_wraps {A : Type} (l : list A) (i : Z) :
  - Z.of_nat (length l) <= i < 0 →
  ∃ a, l !! Z.to_nat (Z.of_nat (length l) + i) = Some a ∧ py_index l i = Ok a.
Proof.
  intros Hi. unfold py_index.
  destruct (Z.ltb_spec i 0); [|lia].
  destruct (Z.leb_spec 0 (i + Z.of_nat (length l))); [|lia].
  destruct (Z.ltb_spec (i + Z.of_nat (length l)) (Z.of_nat (length l))); [|lia].
  simpl. rewrite (Z.add_comm i).
  destruct (lookup_lt_is_Some_2 l (Z.to_nat (Z.of_nat (length l) + i))) as [a Ha]; [lia|].
  rewrite Ha. eauto.
Qed.

Lemma py_index_out_of_range {A : Type} (l : list A) (i : Z) :
  Z.of_nat (length l) <= i ∨ i < - Z.of_nat (length l) →
  py_index l i = Raise IndexError.
Proof.
  intros Hi. unfold py_index.
  destruct (Z.ltb_spec i 0).
  - destruct (Z.leb_spec 0 (i + Z.of_nat (length l))); [lia|done].
  - destruct (Z.leb_spec 0 i); [|lia].
    destruct (Z.ltb_spec i (Z.of_nat (length l))); [lia|done].
Qed.

Lemma bind_Ok_inv {A B : Type} (m : result A) (f : A → result B) (b : B) :
  m ≫= f = Ok b → ∃ a, m = Ok a ∧ f a = Ok b.
Proof. destruct m as [a|e]; simpl; [eauto | done]. Qed.

Lemma mapR_Raise_inv {A B : Type} (f : A → result B) (l : list A) (e : pyerr) :
  mapR f l = Raise e → ∃ a, a ∈ l ∧ f a = Raise e.
Proof.
  induction l as [|a l IH]; simpl; [done|].
  destruct (f a) as [b|e'] eqn:Hfa; simpl.
  - destruct (mapR f l) as [bs|e']; simpl; [done|].
    intros [= ->]. destruct IH as (a' & ? & ?); [done|].
    exists a'. split; [by apply list_elem_of_further | done].
  - intros [= ->]. exists a. split; [apply list_elem_of_here | done].
Qed.

Lemma elem_of_concat {A : Type} (x : A) (ls : list (list A)) :
  x ∈ concat ls ↔ ∃ l, x ∈ l ∧ l ∈ ls.
Proof.
  rewrite list_elem_of_In, in_concat. split.
  - intros (l & Hl & Hx). exists l. by rewrite !list_elem_of_In.
  - intros (l & Hx & Hl). exists l. by rewrite <- !list_elem_of_In.
Qed.

Lemma py_index_Raise {A : Type} (l : list A) (i : Z) (e : pyerr) :
  py_index l i = Raise e → e = IndexError.
Proof.
  unfold py_index. destruct (_ && _); [|congruence].
  destruct (l !! _); congruence.
Qed.

Lemma polygonarea_Raise (crd : list point) (e : pyerr) :
  _polygonarea crd = Raise e → e = IndexError.
Proof.
  unfold _polygonarea.
  destruct (py_index crd (-1)) as [a|e1] eqn:H1; simpl.
  - destruct (py_index crd 0) as [b|e2] eqn:H2; simpl; [done|].
    intros [= <-]. by eapply py_index_Raise.
  - intros [= <-]. by eapply py_index_Raise.
Qed.

(** ** Colour matcher *)

Section ColorMatcher.
Variable c : rgb.

Lemma diffs_nonneg (p : rgb) : 0 <= diffs c p.
Proof. destruct c as [[? ?] ?], p as [[? ?] ?]; simpl; lia. Qed.

Lemma diffs_zero_eq (p : rgb) : diffs c p = 0 → p = c.
Proof.
  destruct c as [[r g] b], p as [[r' g'] b']; simpl; intros H.
  repeat f_equal; lia.
Qed.

Lemma diffs_self : diffs c c = 0.
Proof. destruct c as [[r g] b]; simpl; lia. Qed.

Lemma diffs_below_768 (p : rgb) : valid_rgb c → valid_rgb p → diffs c p < 768.
Proof.
  unfold valid_rgb, channel.
  destruct c as [[r g] b], p as [[r' g'] b']; simpl; lia.
Qed.

Lemma matchcolor_loop_scanned (pal pre : list palette_entry) best bestcol :
  scanned c pre best bestcol →
  (∀ e, e ∈ pre ++ pal → diffs c (entry_rgb e) < 768) →
  pre ++ pal ≠ [] →
  ∃ i e, earliest_nearest c (pre ++ pal) i e ∧
         matchcolor_loop c pal best bestcol = Ok (entry_id e).
Proof.
  revert pre best bestcol.
  induction pal as [|[[colorid name] crgb] pal IH]; intros pre best bestcol [Hpre Hbest] Hlt Hne.
  - rewrite app_nil_r in *. simpl. destruct bestcol as [id|].
    + destruct Hbest as (i & e & Hi & <- & Hd & Hearly).
      exists i, e. split; [|done]. split; [done|]. split.
      * intros e' He'. rewrite Hd. by apply Hpre.
      * intros j e' Hj He'. rewrite Hd. by eapply Hearly.
    + destruct pre as [|e pre]; [done|].
      assert (He : e ∈ e :: pre) by apply list_elem_of_here.
      pose proof (Hlt e He). pose proof (Hpre e He). lia.
  - assert (Hmid : (pre ++ (colorid, name, crgb) :: pal) !! length pre
                   = Some (colorid, name, crgb)) by apply list_lookup_middle, eq_refl.
    assert (Hshift : pre ++ ((colorid, name, crgb) : palette_entry) :: pal
                     = (pre ++ [(colorid, name, crgb)]) ++ pal)
      by (by rewrite <- app_assoc).
    simpl. destruct (Z.eqb_spec (diffs c crgb) 0) as [Hz|Hnz].
    + exists (length pre), (colorid, name, crgb). split; [|done].
      split; [done|]. change (entry_rgb (colorid, name, crgb)) with crgb.
      rewrite Hz. split.
      * intros e' _. apply diffs_nonneg.
      * intros j e' Hj He'. rewrite lookup_app_l in He' by done.
        apply list_elem_of_lookup_2 in He'. apply Hpre in He'.
        pose proof (diffs_nonneg (entry_rgb e')). lia.
    + destruct (Z.ltb_spec (diffs c crgb) best) as [Hb|Hb].
      * rewrite Hshift in Hlt, Hne |- *. apply IH; [|done|done]. split.
        -- intros e' [He'|He']%elem_of_app.
           ++ apply Hpre in He'. lia.
           ++ apply list_elem_of_singleton in He' as ->.
              change (entry_rgb (colorid, name, crgb)) with crgb. lia.
        -- exists (length pre), (colorid, name, crgb). split_and!; try done.
           ++ by rewrite lookup_app_r, Nat.sub_diag.
           ++ intros j e' Hj He'. rewrite lookup_app_l in He' by done.
              apply list_elem_of_lookup_2 in He'. apply Hpre in He'. lia.
      * rewrite Hshift in Hlt, Hne |- *. apply IH; [|done|done]. split.
        -- intros e' [He'|He']%elem_of_app.
           ++ by apply Hpre.
           ++ apply list_elem_of_singleton in He' as ->.
              change (entry_rgb (colorid, name, crgb)) with crgb. lia.
        -- destruct bestcol as [id|]; [|done].
           destruct Hbest as (i & e & Hi & Hid & Hd & Hearly).
           pose proof (lookup_lt_Some _ _ _ Hi) as Hlen.
           exists i, e. split_and!; try done.
           ++ by rewrite lookup_app_l.
           ++ intros j e' Hj He'. rewrite lookup_app_l in He' by lia. by eapply Hearly.
Qed.

(** An exact match ends the scan: nothing behind it is looked at. *)
Lemma matchcolor_loop_short_circuit (pal : list palette_entry) (i : nat) e :
  pal !! i = Some e →
  diffs c (entry_rgb e) = 0 →
  (∀ (j : nat) e', (j < i)%nat → pal !! j = Some e' → diffs c (entry_rgb e') ≠ 0) →
  ∀ rest best bestcol,
    matchcolor_loop c (take (S i) pal ++ rest) best bestcol = Ok (entry_id e).
Proof.
  revert i. induction pal as [|[[colorid name] crgb] pal IH]; intros i Hi Hz Hearly rest best bestcol.
  - done.
  - destruct i as [|i]; simpl in *.
    + injection Hi as <-. unfold entry_rgb in Hz; simpl in Hz. by rewrite Hz.
    + pose proof (Hearly 0%nat (colorid, name, crgb) ltac:(lia) eq_refl) as Hnz.
      unfold entry_rgb in Hnz; simpl in Hnz.
      destruct (Z.eqb_spec (diffs c crgb) 0); [done|].
      assert (Hearly' : ∀ (j : nat) e', (j < i)%nat → pal !! j = Some e' →
                                        diffs c (entry_rgb e') ≠ 0).
      { intros j e' Hj He'. apply (Hearly (S j)); [lia | done]. }
      destruct (diffs c crgb <? best); by apply IH.
Qed.
End ColorMatcher.

(** C6.  For an RGB triplet and a non-empty palette of 8-bit channels, and
    with direct mode off, [_matchcolor] returns the identifier of the palette
    entry that comes first among those at minimal sum of absolute channel
    differences.  If the triplet occurs verbatim in the palette, the entry
    returned carries exactly that triplet, and the scan stops there: the
    answer is the same whatever follows that entry. *)
Theorem matchcolor_nearest_earliest (pal : list palette_entry) (c : rgb) :
  valid_rgb c → valid_palette pal → pal ≠ [] →
  ∃ (i : nat) (e : palette_entry),
    _matchcolor pal c false = Ok (ColorId (entry_id e)) ∧
    pal !! i = Some e ∧
    (∀ e', e' ∈ pal → diffs c (entry_rgb e) <= diffs c (entry_rgb e')) ∧
    (∀ (j : nat) e', (j < i)%nat → pal !! j = Some e' →
                     diffs c (entry_rgb e) < diffs c (entry_rgb e')) ∧
    ((∃ e', e' ∈ pal ∧ entry_rgb e' = c) →
       entry_rgb e = c ∧
       ∀ rest, _matchcolor (take (S i) pal ++ rest) c false = Ok (ColorId (entry_id e))).
Proof.
  intros Hc Hpal Hne.
  destruct (matchcolor_loop_scanned c pal [] 768 None) as (i & e & (Hi & Hmin & Hearly) & Hrun).
  - split; [|done]. by intros e' ?%elem_of_nil.
  - intros e He. apply diffs_below_768; [done|].
    unfold valid_palette in Hpal. rewrite Forall_forall in Hpal. by apply Hpal.
  - done.
  - simpl in *. exists i, e. unfold _matchcolor. rewrite Hrun. split_and!; try done.
    intros (e' & He' & Heq).
    assert (Hz : diffs c (entry_rgb e) = 0).
    { pose proof (Hmin e' He') as Hle. rewrite Heq, diffs_self in Hle.
      pose proof (diffs_nonneg c (entry_rgb e)). lia. }
    split; [by apply diffs_zero_eq|].
    intros rest. rewrite (matchcolor_loop_short_circuit c pal i e); try done.
    intros j e'' Hj He''. pose proof (Hearly j e'' Hj He''). lia.
Qed.

Lemma matchcolor_nearest_earliest_witness :
  ∃ (i : nat) (e : palette_entry),
    _matchcolor sample_palette (200, 30, 10) false = Ok (ColorId (entry_id e)) ∧
    sample_palette !! i = Some e.
Proof.
  destruct (matchcolor_nearest_earliest sample_palette (200, 30, 10))
    as (i & e & H1 & H2 & _).
  - unfold valid_rgb, channel. simpl. lia.
  - unfold valid_palette, valid_rgb, channel. repeat constructor; simpl; lia.
  - discriminate.
  - exists i, e. split; [exact H1 | exact H2].
Defined.

(** ** Wall refiner *)

Section WallRefiner.
Variable lev : list raw_sector.

Lemma refine_wall_unadjoined sec w :
  w_adjoin w = -1 → refine_wall lev sec w = Ok [mid_wall sec w].
Proof. intros H. unfold refine_wall. by rewrite H. Qed.

Lemma refine_wall_adjoined sec w ad :
  w_adjoin w ≠ -1 → py_index lev (w_adjoin w) = Ok ad →
  ∃ ws, refine_wall lev sec w = Ok ws ∧
    ((s_flralt sec < s_flralt ad)%Q ∧ (s_ceilalt ad < s_ceilalt sec)%Q →
       ws = [step_wall sec ad w; overhang_wall sec ad w]) ∧
    ((s_flralt sec < s_flralt ad)%Q ∧ ¬ (s_ceilalt ad < s_ceilalt sec)%Q →
       ws = [step_wall sec ad w]) ∧
    (¬ (s_flralt sec < s_flralt ad)%Q ∧ (s_ceilalt ad < s_ceilalt sec)%Q →
       ws = [overhang_wall sec ad w]) ∧
    (¬ (s_flralt sec < s_flralt ad)%Q ∧ ¬ (s_ceilalt ad < s_ceilalt sec)%Q →
       ws = []).
Proof.
  intros Hadj Had. unfold refine_wall.
  destruct (Z.eqb_spec (w_adjoin w) (-1)) as [|_]; [done|].
  rewrite Had. simpl. eexists. split; [done|].
  destruct (Qlt_bool (s_flralt sec) (s_flralt ad)) eqn:Hf;
    destruct (Qlt_bool (s_ceilalt ad) (s_ceilalt sec)) eqn:Hc;
    first [apply Qlt_bool_iff in Hf | apply Qlt_bool_false_iff in Hf];
    first [apply Qlt_bool_iff in Hc | apply Qlt_bool_false_iff in Hc];
    split_and!; intros [? ?]; first [done | tauto].
Qed.

Lemma refine_wall_bottom_le_top sec w ws :
  (s_flralt sec <= s_ceilalt sec)%Q →
  refine_wall lev sec w = Ok ws →
  ∀ x, x ∈ ws → (r_bot x <= r_top x)%Q.
Proof.
  intros Hsec. unfold refine_wall.
  destruct (w_adjoin w =? -1).
  - intros [= <-] x ->%list_elem_of_singleton. done.
  - destruct (py_index lev (w_adjoin w)) as [ad|e]; simpl; [|done].
    intros [= <-] x [Hx|Hx]%elem_of_app.
    + destruct (Qlt_bool (s_flralt sec) (s_flralt ad)) eqn:Hf; [|by apply elem_of_nil in Hx].
      apply list_elem_of_singleton in Hx as ->. simpl.
      by apply Qlt_le_weak, Qlt_bool_iff.
    + destruct (Qlt_bool (s_ceilalt ad) (s_ceilalt sec)) eqn:Hc; [|by apply elem_of_nil in Hx].
      apply list_elem_of_singleton in Hx as ->. simpl.
      by apply Qlt_le_weak, Qlt_bool_iff.
Qed.

(** The inner loop appends, wall after wall, what [refine_wall] yields. *)
Lemma refine_walls_Ok sec ws swalls origw swalls' origw' :
  refine_walls lev sec ws swalls origw = Ok (swalls', origw') →
  ∃ wss, mapR (refine_wall lev sec) ws = Ok wss ∧
         swalls' = swalls ++ concat wss ∧
         origw' = origw ++ map (fun w => (w_start w, w_end w)) ws.
Proof.
  revert swalls origw. induction ws as [|w ws IH]; simpl; intros swalls origw H.
  - injection H as <- <-. exists []. by rewrite !app_nil_r.
  - destruct (refine_wall lev sec w) as [new|e]; simpl in *; [|done].
    destruct (IH _ _ H) as (wss & -> & -> & ->). simpl.
    exists (new :: wss). by rewrite <- !app_assoc.
Qed.

Lemma refine_walls_Raise sec ws w e :
  w ∈ ws → refine_wall lev sec w = Raise e →
  ∀ swalls origw, ∃ e', refine_walls lev sec ws swalls origw = Raise e'.
Proof.
  intros Hw He. induction ws as [|w' ws IH]; [by apply elem_of_nil in Hw|].
  intros swalls origw. simpl.
  destruct (refine_wall lev sec w') as [new|e'] eqn:Hw'; simpl; [|by eexists].
  apply elem_of_cons in Hw as [->|Hw]; [congruence|]. by apply IH.
Qed.

Lemma refine_sector_walls sec rs :
  refine_sector lev sec = Ok rs →
  ∃ wss, mapR (refine_wall lev sec) (s_walls sec) = Ok wss ∧ walls rs = concat wss.
Proof.
  unfold refine_sector. destruct (_polygonarea _) as [a|e]; simpl; [|done].
  destruct (refine_walls lev sec (s_walls sec) [] []) as [[swalls origw]|e] eqn:Hws;
    simpl; [|done].
  intros [= <-]. simpl.
  destruct (refine_walls_Ok _ _ _ _ _ _ Hws) as (wss & Hwss & -> & _). eauto.
Qed.

Lemma refine_sector_Raise sec w e :
  w ∈ s_walls sec → refine_wall lev sec w = Raise e →
  ∃ e', refine_sector lev sec = Raise e'.
Proof.
  intros Hw He. unfold refine_sector.
  destruct (_polygonarea _) as [a|e']; simpl; [|by eexists].
  destruct (refine_walls_Raise sec _ w e Hw He [] []) as [e' ->]. simpl. by eexists.
Qed.
End WallRefiner.

Lemma Forall2_lookup_l_Ok {A B : Type} (P : A → B → Prop) (l : list A) (k : list B) i a :
  Forall2 P l k → l !! i = Some a → ∃ b, k !! i = Some b ∧ P a b.
Proof. intros H. revert i. induction H; intros [|i] Hi; simplify_eq/=; eauto. Qed.

(** C3.  An unadjoined raw wall yields exactly one refined wall, from the
    sector's floor to its ceiling, with the mid texture and anchored from
    the bottom.  A wall adjoined to a sector [ad] yields the bottom-textured,
    bottom-anchored wall from this floor to the floor of [ad] exactly when
    the floor of [ad] is strictly higher, the top-textured, top-anchored wall
    from the ceiling of [ad] to this ceiling exactly when the ceiling of [ad]
    is strictly lower, both when both hold, and nothing when neither holds.
    The walls of a refined sector are these, raw wall after raw wall. *)
Theorem levrefine_wall_cases (lev : list raw_sector) :
  (∀ sec w, w_adjoin w = -1 → refine_wall lev sec w = Ok [mid_wall sec w]) ∧
  (∀ sec w ad, w_adjoin w ≠ -1 → py_index lev (w_adjoin w) = Ok ad →
     ∃ ws, refine_wall lev sec w = Ok ws ∧
       ((s_flralt sec < s_flralt ad)%Q ∧ (s_ceilalt ad < s_ceilalt sec)%Q →
          ws = [step_wall sec ad w; overhang_wall sec ad w]) ∧
       ((s_flralt sec < s_flralt ad)%Q ∧ ¬ (s_ceilalt ad < s_ceilalt sec)%Q →
          ws = [step_wall sec ad w]) ∧
       (¬ (s_flralt sec < s_flralt ad)%Q ∧ (s_ceilalt ad < s_ceilalt sec)%Q →
          ws = [overhang_wall sec ad w]) ∧
       (¬ (s_flralt sec < s_flralt ad)%Q ∧ ¬ (s_ceilalt ad < s_ceilalt sec)%Q →
          ws = [])) ∧
  (∀ out (k : nat) sec, _levrefine lev = Ok out → lev !! k = Some sec →
     ∃ rs wss, out !! k = Some rs ∧
               mapR (refine_wall lev sec) (s_walls sec) = Ok wss ∧
               walls rs = concat wss).
Proof.
  split_and!.
  - apply refine_wall_unadjoined.
  - apply refine_wall_adjoined.
  - intros out k sec Hout Hk. apply mapR_Ok in Hout.
    destruct (Forall2_lookup_l_Ok _ _ _ _ _ Hout Hk) as (rs & Hrs & Hsec).
    destruct (refine_sector_walls _ _ _ Hsec) as (wss & ? & ?). eauto.
Qed.

Lemma levrefine_wall_cases_witness :
  let sec := room 0 0 4 4 0 8 1 in
  let ad := room 4 0 8 4 2 6 0 in
  let w := sample_wall (0, 0)%Q (4, 0)%Q 1 in
  ∃ ws, refine_wall stepped_level sec w = Ok ws ∧
        ws = [step_wall sec ad w; overhang_wall sec ad w].
Proof.
  intros sec ad w.
  destruct (levrefine_wall_cases stepped_level) as (_ & Hadj & _).
  destruct (Hadj sec w ad) as (ws & Hws & Hboth & _).
  - discriminate.
  - reflexivity.
  - exists ws. split; [exact Hws|]. apply Hboth. split; reflexivity.
Defined.

Lemma refine_wall_Raise (lev : list raw_sector) sec w e :
  refine_wall lev sec w = Raise e → e = IndexError.
Proof.
  unfold refine_wall. destruct (w_adjoin w =? -1); [done|].
  destruct (py_index lev (w_adjoin w)) as [ad|e1] eqn:H1; simpl; [done|].
  intros [= <-]. by eapply py_index_Raise.
Qed.

Lemma refine_walls_Raise_inv (lev : list raw_sector) sec ws swalls origw e :
  refine_walls lev sec ws swalls origw = Raise e → e = IndexError.
Proof.
  revert swalls origw. induction ws as [|w ws IH]; simpl; intros swalls origw; [done|].
  destruct (refine_wall lev sec w) as [new|e1] eqn:H1; simpl.
  - apply IH.
  - intros [= <-]. by eapply refine_wall_Raise.
Qed.

(** The only exception [_levrefine] can raise is [IndexError]. *)
Lemma levrefine_Raise (lev : list raw_sector) (e : pyerr) :
  _levrefine lev = Raise e → e = IndexError.
Proof.
  intros (sec & _ & Hsec)%mapR_Raise_inv. revert Hsec. unfold refine_sector.
  destruct (_polygonarea _) as [a|e1] eqn:H1; simpl.
  - destruct (refine_walls _ _ _ _ _) as [[swalls origw]|e2] eqn:H2; simpl; [done|].
    intros [= <-]. by eapply refine_walls_Raise_inv.
  - intros [= <-]. by eapply polygonarea_Raise.
Qed.

(** C8, as the code has it.  An adjoin that is not [-1] and lies at or
    beyond the number of sectors, or below minus that number, makes wall
    refinement fail with [IndexError], for the wall and for the whole level.
    An adjoin from minus the number of sectors up to [-2] is a valid Python
    index: it is resolved, counting from the end of the sector list, and the
    wall is refined against that sector without any error. *)
Theorem levrefine_adjoin_index (lev : list raw_sector) (sec : raw_sector) (w : raw_wall) :
  let n := Z.of_nat (length lev) in
  w_adjoin w ≠ -1 →
  (n <= w_adjoin w ∨ w_adjoin w < - n →
     refine_wall lev sec w = Raise IndexError ∧
     (sec ∈ lev → w ∈ s_walls sec → _levrefine lev = Raise IndexError)) ∧
  (- n <= w_adjoin w < -1 →
     ∃ ad ws, lev !! Z.to_nat (n + w_adjoin w) = Some ad ∧
              refine_wall lev sec w = Ok ws ∧
              ∀ x, x ∈ ws → x = step_wall sec ad w ∨ x = overhang_wall sec ad w).
Proof.
  intros n Hadj. split.
  - intros Hout.
    assert (Hw : refine_wall lev sec w = Raise IndexError).
    { unfold refine_wall. destruct (Z.eqb_spec (w_adjoin w) (-1)); [done|].
      by rewrite py_index_out_of_range. }
    split; [done|]. intros Hsec Hin.
    destruct (refine_sector_Raise lev sec w _ Hin Hw) as [e He].
    destruct (mapR_Raise (refine_sector lev) lev sec e Hsec He) as [e' He'].
    unfold _levrefine. rewrite He'. f_equal. by eapply levrefine_Raise.
  - intros Hwrap.
    destruct (py_index_wraps lev (w_adjoin w)) as (ad & Hlook & Hidx); [lia|].
    exists ad. unfold refine_wall.
    destruct (Z.eqb_spec (w_adjoin w) (-1)); [done|].
    rewrite Hidx. simpl. eexists. split_and!; [done..|].
    intros x [Hx|Hx]%elem_of_app.
    + destruct (Qlt_bool _ _); [|by apply elem_of_nil in Hx].
      apply list_elem_of_singleton in Hx as ->. by left.
    + destruct (Qlt_bool _ _); [|by apply elem_of_nil in Hx].
      apply list_elem_of_singleton in Hx as ->. by right.
Qed.

(** The refined walls of a level whose sectors have their ceiling at or
    above their floor all have their top at or above their bottom. *)
Lemma levrefine_bottom_le_top (lev : list raw_sector) (out : list sector) :
  (∀ sec, sec ∈ lev → (s_flralt sec <= s_ceilalt sec)%Q) →
  _levrefine lev = Ok out →
  ∀ rs x, rs ∈ out → x ∈ walls rs → (r_bot x <= r_top x)%Q.
Proof.
  intros Hlev Hout rs x Hrs Hx. apply mapR_Ok in Hout.
  apply list_elem_of_lookup_1 in Hrs as [k Hk].
  destruct (Forall2_lookup_r _ _ _ _ _ Hout Hk) as (sec & Hsec & Href).
  destruct (refine_sector_walls _ _ _ Href) as (wss & Hwss & Hwalls).
  rewrite Hwalls in Hx. apply elem_of_concat in Hx as (ws & Hxws & Hws).
  apply mapR_Ok in Hwss. apply list_elem_of_lookup_1 in Hws as [j Hj].
  destruct (Forall2_lookup_r _ _ _ _ _ Hwss Hj) as (w & _ & Hw).
  eapply refine_wall_bottom_le_top; [|exact Hw|exact Hxws].
  apply Hlev. by eapply list_elem_of_lookup_2.
Qed.

(** A wall adjoined to [-2] in a level of two sectors: neither the marker
    [-1] nor a sector index, and the level is refined all the same. *)
Lemma levrefine_negative_adjoin_accepted :
  let sec := room 4 0 8 4 0 8 (-2) in
  let w := sample_wall (4, 0)%Q (8, 0)%Q (-2) in
  sec ∈ wrapped_level ∧ w ∈ s_walls sec ∧
  w_adjoin w ≠ -1 ∧ ¬ (0 <= w_adjoin w < Z.of_nat (length wrapped_level)) ∧
  ∃ out, _levrefine wrapped_level = Ok out.
Proof.
  split_and!.
  - apply list_elem_of_further, list_elem_of_here.
  - apply list_elem_of_here.
  - done.
  - simpl. lia.
  - vm_compute. by eexists.
Qed.

Lemma levrefine_adjoin_index_witness :
  _levrefine broken_level = Raise IndexError.
Proof.
  destruct (levrefine_adjoin_index broken_level (room 0 0 4 4 0 8 5)
              (sample_wall (0, 0)%Q (4, 0)%Q 5)) as [Hbad _].
  - discriminate.
  - destruct Hbad as [_ Hlev].
    + left. simpl. lia.
    + apply Hlev; apply list_elem_of_here.
Defined.

(** ** The wall height loop *)

Lemma plate_step_pos : (0 < plate_step)%Q.
Proof. reflexivity. Qed.

Lemma Qle_bool_false_iff (x y : Q) : Qle_bool x y = false ↔ (y < x)%Q.
Proof.
  rewrite <- not_true_iff_false, Qle_bool_iff.
  split; [apply Qnot_le_lt | apply Qlt_not_le].
Qed.


Section WallColumn.
Variables (palette : list palette_entry) (directrgb : bool) (zscale : Q).
Variables (teximg : image) (texposx : Z) (tile : Z * Z).
Variables (bot top offy : Q) (topanchor : bool).


(** One turn at [cur], then the exit: what the loop does when the next
    height is already above [top]. *)
Lemma wall_column_last_turn (fuel : nat) (cur : Q) (acc : list plate) :
  (cur <= top)%Q → (top < cur + plate_step)%Q →
  wall_column (S (S fuel)) palette directrgb zscale teximg texposx tile
              bot top offy topanchor cur acc
  = let vertpos := if topanchor then (top - cur)%Q else (bot - cur)%Q in
    match py_mod (py_int ((vertpos * zscale + offy) * PXPERDFU)) (size teximg).2 with
    | Raise e => Some (Raise e)
    | Ok texposy =>
        match _matchcolor palette (getpixel teximg (texposx, texposy)) directrgb with
        | Raise e => Some (Raise e)
        | Ok legocol => Some (Ok (acc ++ [(tile.1, tile.2, cur, legocol)]))
        end
    end.
Proof.
  intros Hle Hgt. cbn [wall_column].
  apply Qle_bool_iff in Hle. rewrite Hle. cbv zeta.
  destruct (py_mod _ _) as [texposy|e]; [|done].
  destruct (_matchcolor _ _ _) as [legocol|e]; [|done].
  fold plate_step. apply Qle_bool_false_iff in Hgt. by rewrite Hgt.
Qed.
End WallColumn.

Lemma py_round_comp (x y : Q) : (x == y)%Q → py_round x = py_round y.
Proof.
  intros H. unfold py_round. rewrite (Qfloor_comp _ _ H).
  assert (Hc : (x - inject_Z (Qfloor y) ?= 1 # 2)%Q = (y - inject_Z (Qfloor y) ?= 1 # 2)%Q)
    by (by rewrite H).
  by rewrite Hc.
Qed.

Lemma wall_extent_degenerate (zscale : Q) (rounding : Z) (w : wall) (bot top : Q) :
  (r_top w == r_bot w)%Q →
  wall_extent zscale rounding w = Ok (bot, top) → top = bot.
Proof.
  intros Heq. unfold wall_extent, py_div.
  destruct (Qeq_bool zscale 0); simpl; [done|].
  intros [= <- <-]. unfold py_round_n. f_equal. f_equal. apply py_round_comp.
  by rewrite Heq.
Qed.


(** C5, as the code has it.  In a level whose sectors have their ceiling
    at or above their floor, every refined wall has its top at or above its
    bottom.  For a refined wall whose top equals its bottom the height loop
    always ends, and unless the texture look-up or the colour match raises
    it appends exactly one plate for the tile, at the wall's bottom height:
    the loop test is [curheight <= top], so the bottom level itself is
    visited. *)
Theorem refined_wall_bottom_top (lev : list raw_sector) :
  (∀ out, (∀ sec, sec ∈ lev → (s_flralt sec <= s_ceilalt sec)%Q) →
     _levrefine lev = Ok out →
     ∀ rs x, rs ∈ out → x ∈ walls rs → (r_bot x <= r_top x)%Q) ∧
  (∀ palette directrgb zscale rounding teximg texposx (w : wall) tile legoplates,
     (r_top w == r_bot w)%Q →
     ∃ r, wall_tile_plates palette directrgb zscale rounding teximg texposx w tile legoplates
          = Some r ∧
       (∀ ps, r = Ok ps →
          ∃ bot legocol, wall_extent zscale rounding w = Ok (bot, bot) ∧
                         ps = legoplates ++ [(tile.1, tile.2, bot, legocol)]) ∧
       (¬ (zscale == 0)%Q → (size teximg).2 ≠ 0 → directrgb = true → ∃ ps, r = Ok ps)).
Proof.
  split; [intros out; apply levrefine_bottom_le_top|].
  intros palette directrgb zscale rounding teximg texposx w tile legoplates Hdeg.
  unfold wall_tile_plates.
  destruct (wall_extent zscale rounding w) as [[bot top]|e] eqn:Hext.
  - pose proof (wall_extent_degenerate _ _ _ _ _ Hdeg Hext) as ->.
    unfold column_fuel. rewrite wall_column_last_turn.
    + cbv zeta. destruct (py_mod _ _) as [texposy|e] eqn:Hmod.
      * destruct (_matchcolor _ _ _) as [legocol|e] eqn:Hcol.
        -- eexists. split; [done|]. split; [|eauto].
           intros ps [= <-]. eauto.
        -- eexists. split; [done|]. split; [done|].
           intros _ _ ->. done.
      * eexists. split; [done|]. split; [done|].
        intros _ Hsize _. unfold py_mod in Hmod.
        by destruct (Z.eqb_spec (size teximg).2 0).
    + apply Qle_refl.
    + pose proof plate_step_pos. lra.
  - eexists. split; [done|]. split; [done|].
    intros Hz _ _. unfold wall_extent, py_div in Hext.
    destruct (Qeq_bool zscale 0) eqn:Hq; [by apply Qeq_bool_iff in Hq|done].
Qed.

(** A wall whose top equals its bottom gets a plate on its tile. *)
Lemma flat_wall_gets_a_plate :
  (r_top flat_wall == r_bot flat_wall)%Q ∧
  ∃ pl, wall_tile_plates sample_palette true (18 # 10) 3 black_pixel 0 flat_wall (0, 0) []
        = Some (Ok [pl]).
Proof. split; [done|]. vm_compute. by eexists. Qed.

Lemma refined_wall_bottom_top_witness :
  ∃ r, wall_tile_plates sample_palette true (18 # 10) 3 black_pixel 0 flat_wall (0, 0) []
       = Some r.
Proof.
  destruct (refined_wall_bottom_top []) as [_ Hflat].
  destruct (Hflat sample_palette true (18 # 10)%Q 3 black_pixel 0 flat_wall (0, 0) [])
    as (r & Hr & _).
  - reflexivity.
  - exists r. exact Hr.
Defined.

(** ** Sector ordering *)

(** Slot 10, the sort key of [dfmap], is the no-floor flag; the area sits
    in slot 12. *)
Lemma sort_key_is_slot_10 (e : sector) :
  py_index (sector_slots e) 10 = Ok (VBool (sort_key e)) ∧
  py_index (sector_slots e) 12 = Ok (VFloat (area e)).
Proof. done. Qed.

Lemma insert_by_all_le {A : Type} (le : A → A → bool) (x : A) (l : list A) :
  (∀ y, y ∈ l → le y x = true) → insert_by le x l = l ++ [x].
Proof.
  induction l as [|y l IH]; intros H; simpl; [done|].
  rewrite H by apply list_elem_of_here.
  rewrite IH; [done|]. intros z Hz. apply H. by apply list_elem_of_further.
Qed.

Lemma py_sort_equal_keys {A K : Type} (leb : K → K → bool) (key : A → K)
    (reverse : bool) (l : list A) (k : K) :
  leb k k = true → (∀ x, x ∈ l → key x = k) → py_sort leb key reverse l = l.
Proof.
  intros Hrefl Hkey. unfold py_sort.
  set (le := fun a b => if reverse then leb (key b) (key a) else leb (key a) (key b)).
  assert (Hgen : ∀ acc, (∀ x, x ∈ acc → key x = k) →
                        fold_left (fun acc x => insert_by le x acc) l acc = acc ++ l).
  { induction l as [|x l IH]; intros acc Hacc; simpl; [by rewrite app_nil_r|].
    assert (Hx : key x = k) by apply Hkey, list_elem_of_here.
    rewrite insert_by_all_le.
    - rewrite IH.
      + by rewrite <- app_assoc.
      + intros y Hy. apply Hkey. by apply list_elem_of_further.
      + intros y [Hy|Hy%list_elem_of_singleton]%elem_of_app; [by apply Hacc | by subst].
    - intros y Hy. unfold le. rewrite Hx, (Hacc y Hy). by destruct reverse. }
  apply (Hgen []). by intros x ?%elem_of_nil.
Qed.

(** Sectors that agree on the no-floor flag are left in their input order,
    whatever their areas and whatever the priority flag. *)
Lemma sort_sectors_same_flag (prioritylarge : bool) (lev : list sector) (b : bool) :
  (∀ e, e ∈ lev → openflr e = b) → sort_sectors prioritylarge lev = lev.
Proof.
  intros H. unfold sort_sectors. apply (py_sort_equal_keys _ _ _ _ b); [by destruct b | done].
Qed.

(** C2, on two rooms with a floor each, the large one parsed first.  With
    [prioritylarge] set the sort is ascending, so an ordering by area would
    put the small room first; the sort key is slot 10, the no-floor flag, and
    the rooms stay as they were parsed.  With [prioritylarge] cleared and the
    small room parsed first, an ordering by descending area would put the
    large room first, and again nothing moves. *)
Theorem sort_sectors_not_by_area :
  ∃ big small,
    _levrefine two_rooms = Ok [big; small] ∧
    (area small < area big)%Q ∧
    sort_sectors true [big; small] = [big; small] ∧
    sort_sectors false [small; big] = [small; big].
Proof.
  unfold _levrefine. simpl. do 2 eexists. split; [reflexivity|].
  split; [reflexivity|]. split; reflexivity.
Qed.

(** ** Line tiling *)


(** On a non-negative float [int()] is the floor. *)
Lemma py_int_floor (x : Q) : (0 <= x)%Q → py_int x = Qfloor x.
Proof.
  unfold Qle, py_int. destruct x as [a b]; simpl. intros H.
  apply Z.quot_div_nonneg; lia.
Qed.



Lemma cell_contains_unique (c : Z * Z) (p : point) :
  cell_contains c p → c = (Qfloor p.1, Qfloor p.2).
Proof.
  destruct c as [i j]. unfold cell_contains; simpl. intros [[H1 H2] [H3 H4]].
  assert (Hfl : ∀ (k : Z) (x : Q), (inject_Z k <= x)%Q → (x < inject_Z k + 1)%Q → k = Qfloor x).
  { intros k x Hle Hlt.
    pose proof (Qfloor_resp_le _ _ Hle) as Ha. rewrite Qfloor_Z in Ha.
    assert (Hb : Qfloor x < k + 1).
    { apply Z.lt_nge. intros Hc.
      assert (Hd : (inject_Z (k + 1) <= inject_Z (Qfloor x))%Q) by (by rewrite <- Zle_Qle).
      rewrite inject_Z_plus in Hd. change (inject_Z 1) with 1%Q in Hd.
      pose proof (Qfloor_le x). lra. }
    lia. }
  f_equal; by apply Hfl.
Qed.




(** ** Polygon tiling *)

Lemma Qlt_bool_comp (x x' y y' : Q) :
  (x == x')%Q → (y == y')%Q → Qlt_bool x y = Qlt_bool x' y'.
Proof.
  intros Hx Hy. destruct (Qlt_bool x' y') eqn:H.
  - apply Qlt_bool_iff. apply Qlt_bool_iff in H. by rewrite Hx, Hy.
  - apply Qlt_bool_false_iff. apply Qlt_bool_false_iff in H. by rewrite Hx, Hy.
Qed.

(** Moving the first point to an equal one does not change the side. *)
Lemma ccw_comp_first (px y y' : Q) (C D : point) :
  (y == y')%Q → ccw (px, y) C D = ccw (px, y') C D.
Proof.
  intros H. unfold ccw; simpl. apply Qlt_bool_comp; by rewrite H.
Qed.

(** Against an upward vertical segment on the line [x = px], a point is
    counter-clockwise exactly when it lies strictly to the left. *)
Lemma ccw_vertical (px ya yb : Q) (C : point) :
  (ya < yb)%Q → ccw (px, ya) (px, yb) C = Qlt_bool C.1 px.
Proof.
  intros H. unfold ccw; simpl.
  destruct (Qlt_bool C.1 px) eqn:Hc.
  - apply Qlt_bool_iff. apply Qlt_bool_iff in Hc. nra.
  - apply Qlt_bool_false_iff. apply Qlt_bool_false_iff in Hc. nra.
Qed.

(** A vertical probe crosses a segment when the segment's ends lie on
    either side of the probe's line and the probe's ends on either side of
    the segment's. *)
Lemma intersect_vertical (px ya yb : Q) (C D : point) :
  (ya < yb)%Q →
  _intersect (px, ya) (px, yb) C D
  = xorb (ccw (px, ya) C D) (ccw (px, yb) C D) && xorb (Qlt_bool C.1 px) (Qlt_bool D.1 px).
Proof.
  intros H. unfold _intersect. rewrite !ccw_vertical by done.
  by destruct (ccw _ C D), (ccw _ C D), (Qlt_bool C.1 px), (Qlt_bool D.1 px).
Qed.

(** Two probes laid end to end cross a segment, between them, an odd
    number of times exactly when the probe spanning both does. *)
Lemma intersect_vertical_join (px ya yb yb' yc : Q) (C D : point) :
  (ya < yb)%Q → (yb == yb')%Q → (yb' < yc)%Q →
  xorb (_intersect (px, ya) (px, yb) C D) (_intersect (px, yb') (px, yc) C D)
  = _intersect (px, ya) (px, yc) C D.
Proof.
  intros H1 H2 H3.
  rewrite !intersect_vertical by lra.
  rewrite (ccw_comp_first px yb yb') by done.
  by destruct (ccw _ C D), (ccw _ C D), (ccw _ C D), (Qlt_bool C.1 px), (Qlt_bool D.1 px).
Qed.

Lemma crossing_parity_join (ws : list (point * point)) (px ya yb yb' yc : Q) :
  (ya < yb)%Q → (yb == yb')%Q → (yb' < yc)%Q →
  xorb (crossing_parity ws (px, ya) (px, yb)) (crossing_parity ws (px, yb') (px, yc))
  = crossing_parity ws (px, ya) (px, yc).
Proof.
  intros H1 H2 H3. induction ws as [|[C D] ws IH]; simpl; [done|].
  rewrite <- IH, <- (intersect_vertical_join px ya yb yb' yc C D) by done.
  by destruct (_intersect _ _ C D), (_intersect _ _ C D),
       (crossing_parity ws _ _), (crossing_parity ws _ _).
Qed.

Lemma count_crossings_odd (ws : list (point * point)) (a b : point) (c : Z) :
  Z.odd (count_crossings ws a b c) = xorb (Z.odd c) (crossing_parity ws a b).
Proof.
  unfold count_crossings. revert c.
  induction ws as [|w ws IH]; intros c; simpl; [by rewrite xorb_false_r|].
  rewrite IH. destruct (_intersect a b w.1 w.2).
  - rewrite Z.odd_add. simpl. by destruct (Z.odd c), (crossing_parity ws a b).
  - by destruct (Z.odd c), (crossing_parity ws a b).
Qed.

(** The running count up to cell [y] has the parity of the single probe
    from the bottom of the column to the probe point of [y]. *)
Lemma running_crossings_odd (ws : list (point * point)) (column miny : Z) (k : nat) :
  Z.odd (running_crossings ws column miny (miny + Z.of_nat k))
  = crossing_parity ws (probe_start column miny) (probe_end column (miny + Z.of_nat k)).
Proof.
  unfold running_crossings, py_range, probe_step.
  induction k as [|k IH].
  - replace (miny + Z.of_nat 0 + 1 - miny) with 1 by lia.
    replace (miny + Z.of_nat 0) with miny by lia.
    simpl. by rewrite count_crossings_odd.
  - replace (miny + Z.of_nat (S k) + 1 - miny) with ((miny + Z.of_nat k + 1 - miny) + 1) by lia.
    rewrite seqZ_app by lia. rewrite fold_left_app. simpl.
    rewrite count_crossings_odd, IH.
    replace (miny + (miny + Z.of_nat k + 1 - miny)) with (miny + Z.of_nat (S k)) by lia.
    unfold probe_start, probe_end.
    apply crossing_parity_join.
    + rewrite inject_Z_plus.
      assert (Hk : (0 <= inject_Z (Z.of_nat k))%Q)
        by (change 0%Q with (inject_Z 0); rewrite <- Zle_Qle; lia).
      generalize dependent (inject_Z (Z.of_nat k)). generalize (inject_Z miny).
      intros; lra.
    + replace (Z.of_nat (S k)) with (Z.of_nat k + 1) by lia.
      rewrite !inject_Z_plus. change (inject_Z 1) with 1%Q. ring.
    + change (Z.of_nat 0) with 0. rewrite Z.add_0_l.
      generalize (inject_Z (miny + Z.of_nat (S k))). intros; lra.
Qed.

Section ColumnScan.
Variable ws : list (point * point).
Variable column : Z.

Lemma column_scan_elem (k : nat) (m c : Z) (tiles : list (Z * Z)) (x : Z * Z) :
  x ∈ column_scan ws (1 # 2) (- (1 # 2)) column (seqZ m (Z.of_nat k)) c tiles ↔
  x ∈ tiles ∨
  ∃ y, m <= y < m + Z.of_nat k ∧ x = (column, y) ∧
       Z.odd (fold_left (probe_step ws column) (seqZ m (y - m + 1)) c) = true.
Proof.
  revert m c tiles. induction k as [|k IH]; intros m c tiles.
  - simpl. split; [by left|]. intros [?|(y & ? & _)]; [done|lia].
  - rewrite seqZ_cons by lia.
    replace (Z.pred (Z.of_nat (S k))) with (Z.of_nat k) by lia.
    cbn [column_scan]. cbv zeta. fold (probe_start column m) (probe_end column m).
    fold (probe_step ws column c m). rewrite IH. clear IH.
    assert (Hhead : ∀ y, Z.succ m <= y →
              fold_left (probe_step ws column) (seqZ m (y - m + 1)) c
              = fold_left (probe_step ws column) (seqZ (Z.succ m) (y - Z.succ m + 1)) (probe_step ws column c m)).
    { intros y Hy. rewrite (seqZ_cons m) by lia. simpl. repeat f_equal; lia. }
    assert (Hfirst : fold_left (probe_step ws column) (seqZ m (m - m + 1)) c = probe_step ws column c m).
    { replace (m - m + 1) with 1 by lia. simpl. repeat f_equal; lia. }
    assert (Hodd : (probe_step ws column c m mod 2 =? 0) = negb (Z.odd (probe_step ws column c m))).
    { rewrite Zmod_odd. by destruct (Z.odd (probe_step ws column c m)). }
    rewrite Hodd. split.
    + intros [Hx|(y & Hy & -> & Hc)].
      * destruct (Z.odd (probe_step ws column c m)) eqn:Ho; simpl in Hx; [|by left].
        apply elem_of_app in Hx as [Hx|Hx%list_elem_of_singleton]; [by left|].
        right. exists m. rewrite Hfirst. split_and!; [lia..|done|done].
      * right. exists y. rewrite Hhead by lia. split_and!; [lia..|done|done].
    + intros [Hx|(y & Hy & -> & Hc)].
      * left. destruct (Z.odd (probe_step ws column c m)); simpl; [|done].
        apply elem_of_app. by left.
      * destruct (decide (y = m)) as [->|Hne].
        -- left. rewrite Hfirst in Hc. rewrite Hc. simpl.
           apply elem_of_app. right. apply list_elem_of_here.
        -- right. exists y. rewrite <- Hhead by lia. split_and!; [lia..|done|done].
Qed.
End ColumnScan.

Lemma tilepolygon_columns_elem (ws : list (point * point)) (k : nat) (miny : Z)
    (cols : list Z) (acc : list (Z * Z)) (x : Z * Z) :
  x ∈ fold_left (fun tiles column =>
                   column_scan ws (1 # 2) (- (1 # 2)) column (seqZ miny (Z.of_nat k)) 0 tiles)
                cols acc ↔
  x ∈ acc ∨
  ∃ column y, column ∈ cols ∧ miny <= y < miny + Z.of_nat k ∧ x = (column, y) ∧
              Z.odd (running_crossings ws column miny y) = true.
Proof.
  revert acc. induction cols as [|col cols IH]; intros acc; simpl.
  - split; [by left|]. intros [?|(? & ? & ?%elem_of_nil & _)]; done.
  - rewrite IH, column_scan_elem. unfold running_crossings, py_range.
    split.
    + intros [[Hx|(y & Hy & -> & Hc)]|(c & y & Hc & Hy & -> & Ho)].
      * by left.
      * right. exists col, y. replace (y + 1 - miny) with (y - miny + 1) by lia.
        split_and!; [apply list_elem_of_here|lia..|done|done].
      * right. exists c, y. split_and!; [by apply list_elem_of_further|lia..|done|done].
    + intros [Hx|(c & y & Hc & Hy & -> & Ho)]; [by left; left|].
      apply elem_of_cons in Hc as [->|Hc].
      * left; right. exists y. replace (y - miny + 1) with (y + 1 - miny) by lia.
        split_and!; [lia..|done|done].
      * right. exists c, y. split_and!; [done|lia..|done|done].
Qed.

(** What the default call returns, cell by cell. *)
Lemma tilepolygon_elem (ws : list (point * point)) (minx miny maxx maxy : Z) :
  extents ws = Ok (minx, miny, maxx, maxy) →
  ∃ tiles, _tilepolygon ws = Ok tiles ∧
    ∀ c y, (c, y) ∈ tiles ↔
           minx <= c < maxx ∧ miny <= y < maxy ∧
           Z.odd (running_crossings ws c miny y) = true.
Proof.
  intros Hext. unfold _tilepolygon, tilepolygon_at. rewrite Hext. simpl.
  eexists. split; [done|]. intros c y. unfold py_range.
  destruct (Z_le_gt_dec (maxy - miny) 0) as [Hneg|Hpos].
  - rewrite (seqZ_nil miny) by done. change (@nil Z) with (seqZ miny (Z.of_nat 0)).
    rewrite tilepolygon_columns_elem. split.
    + intros [?%elem_of_nil|(? & ? & _ & ? & _)]; [done|lia].
    + intros (_ & ? & _). lia.
  - replace (maxy - miny) with (Z.of_nat (Z.to_nat (maxy - miny))) by lia.
    rewrite tilepolygon_columns_elem. split.
    + intros [?%elem_of_nil|(c' & y' & Hc%elem_of_seqZ & Hy & [= -> ->] & Ho)]; [done|].
      split_and!; [lia..|done].
    + intros (Hc & Hy & Ho). right. exists c, y.
      split_and!; [apply elem_of_seqZ; lia|lia..|done|done].
Qed.









(** ** Brick packer *)

Section Dict.
Implicit Types (m : dict) (k c : cell) (v : color).

Lemma dict_get_Some_keys m k v : dict_get m k = Some v → k ∈ dict_keys m.
Proof.
  induction m as [|[k' v'] m IH]; simpl; [done|].
  destruct (decide (k' = k)) as [->|]; intros H.
  - apply list_elem_of_here.
  - apply list_elem_of_further. by apply IH.
Qed.

Lemma dict_get_None_keys m k : dict_get m k = None → k ∉ dict_keys m.
Proof.
  induction m as [|[k' v'] m IH]; simpl.
  - by intros _ ?%elem_of_nil.
  - destruct (decide (k' = k)); [done|].
    intros H [?|?]%elem_of_cons; [congruence|]. by apply IH.
Qed.

Lemma dict_keys_get m k : k ∈ dict_keys m → is_Some (dict_get m k).
Proof.
  intros Hk. destruct (dict_get m k) eqn:Hg; [eauto|].
  by apply dict_get_None_keys in Hg.
Qed.

Lemma dict_get_elem m k v : dict_get m k = Some v → (k, v) ∈ m.
Proof.
  induction m as [|[k' v'] m IH]; simpl; [done|].
  destruct (decide (k' = k)) as [->|]; intros H.
  - injection H as ->. apply list_elem_of_here.
  - apply list_elem_of_further. by apply IH.
Qed.

Lemma dict_set_keys m k v c :
  c ∈ dict_keys (dict_set m k v) ↔ c = k ∨ c ∈ dict_keys m.
Proof.
  induction m as [|[k' v'] m IH]; simpl.
  - rewrite list_elem_of_singleton, elem_of_nil. tauto.
  - destruct (decide (k' = k)) as [->|Hne]; simpl.
    + rewrite !elem_of_cons. tauto.
    + rewrite !elem_of_cons, IH. tauto.
Qed.

Lemma dict_set_NoDup m k v : NoDup (dict_keys m) → NoDup (dict_keys (dict_set m k v)).
Proof.
  induction m as [|[k' v'] m IH]; simpl.
  - intros _. apply NoDup_singleton.
  - destruct (decide (k' = k)) as [->|Hne]; simpl; [done|].
    rewrite !NoDup_cons, dict_set_keys. intros [Hk' Hm]. split; [|by apply IH].
    intros [?|?]; [congruence | done].
Qed.

Lemma dict_set_get m k v c w :
  dict_get (dict_set m k v) c = Some w → (c = k ∧ w = v) ∨ dict_get m c = Some w.
Proof.
  induction m as [|[k' v'] m IH]; simpl.
  - destruct (decide (k = c)) as [->|]; [|done]. intros [= ->]. by left.
  - destruct (decide (k' = k)) as [->|Hne]; simpl.
    + destruct (decide (k = c)) as [->|]; [|by right]. intros [= ->]. by left.
    + destruct (decide (k' = c)); [by right | apply IH].
Qed.

Lemma dict_del_Ok m k :
  k ∈ dict_keys m →
  ∃ m', dict_del m k = Ok m' ∧
        dict_keys m ≡ₚ k :: dict_keys m' ∧
        ∀ c, c ≠ k → dict_get m' c = dict_get m c.
Proof.
  induction m as [|[k' v'] m IH]; simpl; [by intros ?%elem_of_nil|].
  destruct (decide (k' = k)) as [->|Hne].
  - intros _. exists m. split_and!; [done..|].
    intros c Hc. by destruct (decide (k = c)).
  - intros [?|Hk]%elem_of_cons; [congruence|].
    destruct (IH Hk) as (m' & -> & Hperm & Hget). simpl.
    exists ((k', v') :: m'). split_and!; [done| |].
    + simpl. rewrite Hperm. apply perm_swap.
    + intros c Hc. simpl. destruct (decide (k' = c)); [done | by apply Hget].
Qed.

(** [for c in coords: del map[c]] on distinct cells that are all present. *)
Lemma dict_del_all (coords : list cell) m :
  NoDup coords → (∀ c, c ∈ coords → c ∈ dict_keys m) →
  ∃ m', foldR dict_del coords m = Ok m' ∧
        dict_keys m ≡ₚ coords ++ dict_keys m' ∧
        ∀ c, c ∉ coords → dict_get m' c = dict_get m c.
Proof.
  revert m. induction coords as [|k coords IH]; intros m Hnd Hin; simpl.
  - exists m. by split_and!.
  - apply NoDup_cons in Hnd as [Hk Hnd].
    destruct (dict_del_Ok m k) as (m1 & -> & Hperm & Hget);
      [apply Hin, list_elem_of_here|]. simpl.
    destruct (IH m1 Hnd) as (m' & -> & Hperm' & Hget').
    { intros c Hc. assert (Hcm : c ∈ dict_keys m) by (by apply Hin, list_elem_of_further).
      rewrite Hperm in Hcm. apply elem_of_cons in Hcm as [->|]; done. }
    exists m'. split_and!; [done| |].
    + by rewrite Hperm, Hperm'.
    + intros c Hc. rewrite not_elem_of_cons in Hc. destruct Hc as [Hck Hc].
      rewrite Hget' by done. by apply Hget.
Qed.
End Dict.

Lemma part_coords_elem (x y h partx party partz : Z) (c : cell) :
  c ∈ part_coords x y h partx party partz ↔
  x <= c.1.1 < x + partx ∧ y <= c.1.2 < y + party ∧ h <= c.2 < h + partz.
Proof.
  unfold part_coords, py_range. destruct c as [[cx cy] cz]. simpl.
  rewrite list_elem_of_bind. split.
  - intros (z & (y' & (x' & Hc%list_elem_of_singleton & Hx%elem_of_seqZ)%list_elem_of_bind
                    & Hy%elem_of_seqZ)%list_elem_of_bind & Hz%elem_of_seqZ).
    injection Hc as -> -> ->. lia.
  - intros (Hx & Hy & Hz). exists cz. split; [|apply elem_of_seqZ; lia].
    apply list_elem_of_bind. exists cy. split; [|apply elem_of_seqZ; lia].
    apply list_elem_of_bind. exists cx. split; [|apply elem_of_seqZ; lia].
    by apply list_elem_of_singleton.
Qed.

Lemma part_coords_NoDup (x y h partx party partz : Z) :
  NoDup (part_coords x y h partx party partz).
Proof.
  unfold part_coords, py_range.
  apply NoDup_bind; [| |apply NoDup_seqZ].
  - intros z1 z2 c _ _
      (y1 & (x1 & ->%list_elem_of_singleton & _)%list_elem_of_bind & _)%list_elem_of_bind
      (y2 & (x2 & [= _ _ ->]%list_elem_of_singleton & _)%list_elem_of_bind & _)%list_elem_of_bind.
    done.
  - intros z _. apply NoDup_bind; [| |apply NoDup_seqZ].
    + intros y1 y2 c _ _
        (x1 & ->%list_elem_of_singleton & _)%list_elem_of_bind
        (x2 & [= _ ->]%list_elem_of_singleton & _)%list_elem_of_bind.
      done.
    + intros y' _. apply NoDup_bind; [| |apply NoDup_seqZ].
      * by intros x1 x2 c _ _ ->%list_elem_of_singleton [= ->]%list_elem_of_singleton.
      * intros x' _. apply NoDup_singleton.
Qed.

Lemma part_coords_unit (x y h : Z) : part_coords x y h 1 1 1 = [(x, y, h)].
Proof.
  unfold part_coords, py_range.
  replace (h + 1 - h) with 1 by lia. replace (y + 1 - y) with 1 by lia.
  replace (x + 1 - x) with 1 by lia.
  assert (Hone : ∀ a, seqZ a 1 = [a]).
  { intros a. rewrite seqZ_cons by lia. by rewrite seqZ_nil. }
  by rewrite !Hone.
Qed.

Section Packing.
Variable m0 : dict.

(** One turn of the inner loop never raises and keeps the invariant; the
    map only shrinks, and a 1 x 1 x 1 part takes the cell it is tried on
    whenever that cell is still there. *)
Lemma try_place_inv (p : part) (st : dict * list placement) (key : cell) :
  packing_inv m0 st →
  ∃ st', try_place p st key = Ok st' ∧ packing_inv m0 st' ∧
         (∀ c, c ∈ dict_keys st'.1 → c ∈ dict_keys st.1) ∧
         (p.1 = (1, 1, 1) → key ∉ dict_keys st'.1).
Proof.
  destruct st as [m asm], p as [[[partx party] partz] partdat], key as [[x y] h].
  intros (Hnd & Hperm & Hget & Hcol). simpl in *. unfold try_place.
  destruct (dict_get m (x, y, h)) as [ccolor|] eqn:Hkey.
  2:{ exists (m, asm). split_and!; [done|by split_and!|done|].
      intros _. by apply dict_get_None_keys. }
  set (coords := part_coords x y h partx party partz).
  destruct (forallb id _) eqn:Hcheck.
  - assert (Hall : ∀ c, c ∈ coords → dict_get m c = Some ccolor).
    { intros c Hc. rewrite forallb_forall in Hcheck.
      assert (Hb : id (bool_decide (dict_get m c = Some ccolor)) = true).
      { apply Hcheck, in_map_iff. exists c. split; [done | by apply list_elem_of_In]. }
      by apply bool_decide_eq_true in Hb. }
    destruct (dict_del_all coords m) as (m' & -> & Hdel & Hget').
    { apply part_coords_NoDup. }
    { intros c Hc. eapply dict_get_Some_keys. by apply Hall. }
    assert (Hnd' : NoDup (coords ++ dict_keys m')) by (by rewrite <- Hdel).
    apply NoDup_app in Hnd' as (_ & Hdisj & Hnd').
    simpl. eexists. split; [done|]. simpl. split_and!.
    + split_and!; simpl.
      * done.
      * rewrite map_app, concat_app. simpl. rewrite app_nil_r.
        rewrite <- Hperm, Hdel, (Permutation_app_comm coords), <- !app_assoc.
        apply Permutation_app_head, Permutation_app_comm.
      * intros c v Hc. apply Hget. rewrite <- Hget'; [done|].
        intros Hin. apply (Hdisj c Hin). by eapply dict_get_Some_keys.
      * intros pl cs c [Hpl|Hpl%list_elem_of_singleton]%elem_of_app Hc.
        -- by eapply Hcol.
        -- injection Hpl as -> ->. simpl. by apply Hget, Hall.
    + intros c Hc. rewrite Hdel. apply elem_of_app. by right.
    + intros [= -> -> ->]. apply (Hdisj (x, y, h)).
      unfold coords. rewrite part_coords_unit. apply list_elem_of_here.
  - exists (m, asm). split_and!; [done|by split_and!|done|].
    intros [= -> -> ->]. exfalso. revert Hcheck.
    unfold coords. rewrite part_coords_unit. simpl.
    by rewrite bool_decide_eq_true_2.
Qed.

Lemma part_scan_inv (p : part) (keys : list cell) (st : dict * list placement) :
  packing_inv m0 st →
  ∃ st', foldR (try_place p) keys st = Ok st' ∧ packing_inv m0 st' ∧
         (∀ c, c ∈ dict_keys st'.1 → c ∈ dict_keys st.1) ∧
         (p.1 = (1, 1, 1) → ∀ c, c ∈ keys → c ∉ dict_keys st'.1).
Proof.
  revert st. induction keys as [|key keys IH]; intros st Hinv; simpl.
  - exists st. split_and!; [done..|]. by intros _ c ?%elem_of_nil.
  - destruct (try_place_inv p st key Hinv) as (st1 & -> & Hinv1 & Hsub1 & Hunit1). simpl.
    destruct (IH st1 Hinv1) as (st' & -> & Hinv' & Hsub' & Hunit').
    exists st'. split_and!; [done..|auto|].
    intros Hp c [->|Hc]%elem_of_cons; [|by apply Hunit'].
    intros Hin. by apply (Hunit1 Hp), Hsub'.
Qed.

(** A pass with a 1 x 1 x 1 part leaves the map empty. *)
Lemma part_pass_inv (p : part) (st : dict * list placement) :
  packing_inv m0 st →
  ∃ st', part_pass st p = Ok st' ∧ packing_inv m0 st' ∧
         (∀ c, c ∈ dict_keys st'.1 → c ∈ dict_keys st.1) ∧
         (p.1 = (1, 1, 1) → st'.1 = []).
Proof.
  intros Hinv. unfold part_pass.
  destruct (part_scan_inv p (dict_keys st.1) st Hinv) as (st' & -> & Hinv' & Hsub & Hunit).
  exists st'. split_and!; [done..|].
  intros Hp. destruct st' as [[|[k v] m'] asm']; [done|]. exfalso.
  apply (Hunit Hp k); [apply Hsub|]; apply list_elem_of_here.
Qed.

Lemma parts_loop_inv (parts : list part) (st : dict * list placement) :
  packing_inv m0 st →
  ∃ st', foldR part_pass parts st = Ok st' ∧ packing_inv m0 st' ∧
         (∀ c, c ∈ dict_keys st'.1 → c ∈ dict_keys st.1) ∧
         ((∃ p, p ∈ parts ∧ p.1 = (1, 1, 1)) → st'.1 = []).
Proof.
  revert st. induction parts as [|p parts IH]; intros st Hinv; simpl.
  - exists st. split_and!; [done..|]. by intros (? & ?%elem_of_nil & _).
  - destruct (part_pass_inv p st Hinv) as (st1 & -> & Hinv1 & Hsub1 & Hunit1). simpl.
    destruct (IH st1 Hinv1) as (st' & -> & Hinv' & Hsub' & Hunit').
    exists st'. split_and!; [done..|auto|].
    intros (q & [->|Hq]%elem_of_cons & Hq1); [|by eauto].
    destruct st' as [[|[k v] m'] asm']; [done|]. exfalso.
    assert (Hk : k ∈ dict_keys st1.1) by apply Hsub', list_elem_of_here.
    rewrite (Hunit1 Hq1) in Hk. by apply elem_of_nil in Hk.
Qed.
End Packing.

Lemma foldR_inv {A S : Type} (f : S → A → result S) (P : S → Prop) (l : list A) (s s' : S) :
  (∀ s a s', a ∈ l → P s → f s a = Ok s' → P s') →
  P s → foldR f l s = Ok s' → P s'.
Proof.
  revert s. induction l as [|a l IH]; intros s Hstep Hs; simpl.
  - by intros [= <-].
  - destruct (f s a) as [s1|e] eqn:Hf; simpl; [|done].
    apply IH.
    + intros s2 b s3 Hb. apply Hstep. by apply list_elem_of_further.
    + eapply Hstep; [apply list_elem_of_here | done | done].
Qed.

(** Whatever is added to the assembly is a part of the catalog laid on the
    cell it was tried on. *)
Lemma try_place_placement (parts : list part) (p : part) (st st' : dict * list placement)
    (key : cell) :
  p ∈ parts → Forall (placement_of parts) st.2 →
  try_place p st key = Ok st' → Forall (placement_of parts) st'.2.
Proof.
  destruct st as [m asm], p as [[[partx party] partz] partdat], key as [[x y] h].
  intros Hp Hasm. simpl in *. unfold try_place.
  destruct (dict_get m (x, y, h)) as [ccolor|]; [|by intros [= <-]].
  destruct (forallb id _); [|by intros [= <-]].
  destruct (foldR dict_del _ m) as [m'|e]; simpl; [|done].
  intros [= <-]. simpl. apply Forall_app. split; [done|].
  apply Forall_singleton. exists x, y, h, partx, party, partz, partdat, ccolor.
  split_and!; [done..|]. simpl. by destruct (partz =? 3).
Qed.

Lemma parts_loop_placement (parts : list part) (st st' : dict * list placement) :
  Forall (placement_of parts) st.2 →
  foldR part_pass parts st = Ok st' → Forall (placement_of parts) st'.2.
Proof.
  apply (foldR_inv part_pass (fun st => Forall (placement_of parts) st.2)).
  intros s p s' Hp Hs. unfold part_pass.
  apply (foldR_inv (try_place p) (fun st => Forall (placement_of parts) st.2)); [|done].
  intros s1 key s2 _. by apply try_place_placement.
Qed.

Lemma build_map_spec (grid : list (cell * color)) (acc : dict) :
  NoDup (dict_keys acc) →
  let m := fold_left (fun m kc => dict_set m kc.1 kc.2) grid acc in
  NoDup (dict_keys m) ∧
  (∀ c, c ∈ dict_keys m ↔ c ∈ dict_keys acc ∨ ∃ col, (c, col) ∈ grid) ∧
  (∀ c col, dict_get m c = Some col → dict_get acc c = Some col ∨ (c, col) ∈ grid).
Proof.
  revert acc. induction grid as [|[k v] grid IH]; intros acc Hnd; simpl.
  - split_and!; [done| |auto]. intros c. split; [auto|].
    by intros [?|(? & ?%elem_of_nil)].
  - destruct (IH (dict_set acc k v) (dict_set_NoDup _ _ _ Hnd)) as (H1 & H2 & H3).
    split_and!; [done| |].
    + intros c. rewrite H2, dict_set_keys. split.
      * intros [[->|?]|(col & ?)]; [right; exists v; apply list_elem_of_here|by left|].
        right. exists col. by apply list_elem_of_further.
      * intros [?|(col & [[= -> ->]|?]%elem_of_cons)]; [by left; right|by left; left|].
        right. by exists col.
    + intros c col [[[-> ->]|?]%dict_set_get|?]%H3.
      * right. apply list_elem_of_here.
      * by left.
      * right. by apply list_elem_of_further.
Qed.

Lemma to_plates_Ok (pltheight : Q) (grid : list plate) :
  ¬ (pltheight == 0)%Q →
  to_plates pltheight grid
  = Ok (map (fun pl : plate => ((pl.1.1.1, pl.1.1.2, py_round (pl.1.2 / pltheight)), pl.2)) grid).
Proof.
  intros Hne.
  assert (Hq : Qeq_bool pltheight 0 = false).
  { destruct (Qeq_bool pltheight 0) eqn:Hq; [by apply Qeq_bool_iff in Hq | done]. }
  unfold to_plates. induction grid as [|[[[x y] h] col] grid IH]; [done|].
  cbn [mapR map]. rewrite IH. unfold py_div. by rewrite Hq.
Qed.

Lemma py_min_Ok (l : list Z) : l ≠ [] → ∃ m, py_min l = Ok m.
Proof. destruct l; [done|]. simpl. eauto. Qed.

Lemma py_max_Ok (l : list Z) : l ≠ [] → ∃ m, py_max l = Ok m.
Proof. destruct l; [done|]. simpl. eauto. Qed.

(** On a non-empty grid and a non-zero plate height the packer returns, and
    its trace satisfies the invariant with respect to the grid's map. *)
Lemma brickify_trace_runs (grid : list plate) (parts : list part) (pltheight : Q) :
  grid ≠ [] → ¬ (pltheight == 0)%Q →
  ∃ cells st,
    grid_cells pltheight grid = Ok cells ∧
    brickify_trace grid parts pltheight = Ok st.2 ∧
    packing_inv cells st ∧
    Forall (placement_of parts) st.2 ∧
    ((∃ p, p ∈ parts ∧ p.1 = (1, 1, 1)) → st.1 = []).
Proof.
  intros Hne Hplt. unfold grid_cells, brickify_trace.
  rewrite to_plates_Ok by done. simpl.
  set (grid' := map _ grid).
  assert (Hne' : grid' ≠ []) by (by destruct grid).
  destruct (py_min_Ok (map (fun c : cell * color => c.1.1.1) grid')) as [? ->];
    [by destruct grid'|].
  destruct (py_min_Ok (map (fun c : cell * color => c.1.1.2) grid')) as [? ->];
    [by destruct grid'|].
  destruct (py_max_Ok (map (fun c : cell * color => c.1.1.1) grid')) as [? ->];
    [by destruct grid'|].
  destruct (py_max_Ok (map (fun c : cell * color => c.1.1.2) grid')) as [? ->];
    [by destruct grid'|].
  destruct (py_min_Ok (map (fun c : cell * color => c.1.2) grid')) as [? ->];
    [by destruct grid'|].
  destruct (py_max_Ok (map (fun c : cell * color => c.1.2) grid')) as [? ->];
    [by destruct grid'|].
  simpl.
  destruct (build_map_spec grid' [] (NoDup_nil_2)) as (Hnd & _ & _).
  destruct (parts_loop_inv (build_map grid') parts (build_map grid', [])) as
    (st & Hrun & Hinv & _ & Hunit).
  { split_and!; simpl; [done|by rewrite app_nil_r|done|].
    by intros ? ? ? ?%elem_of_nil. }
  pose proof (parts_loop_placement parts (build_map grid', []) st (Forall_nil_2 _) Hrun)
    as Hplaced.
  rewrite Hrun. exists (build_map grid'), st. by split_and!.
Qed.

Lemma grid_cells_spec (grid : list plate) (pltheight : Q) (cells : dict) :
  ¬ (pltheight == 0)%Q →
  grid_cells pltheight grid = Ok cells →
  NoDup (dict_keys cells) ∧
  (∀ c, c ∈ dict_keys cells ↔
        ∃ x y h col, (x, y, h, col) ∈ grid ∧ c = (x, y, py_round (h / pltheight))) ∧
  (∀ c col, dict_get cells c = Some col →
            ∃ x y h, (x, y, h, col) ∈ grid ∧ c = (x, y, py_round (h / pltheight))).
Proof.
  intros Hplt. unfold grid_cells. rewrite to_plates_Ok by done. simpl. intros [= <-].
  set (conv := fun pl : plate => ((pl.1.1.1, pl.1.1.2, py_round (pl.1.2 / pltheight)), pl.2)).
  destruct (build_map_spec (map conv grid) [] (NoDup_nil_2)) as (Hnd & Hkeys & Hget).
  assert (Hconv : ∀ c col, (c, col) ∈ map conv grid ↔
            ∃ x y h, (x, y, h, col) ∈ grid ∧ c = (x, y, py_round (h / pltheight))).
  { intros c col. rewrite list_elem_of_In, in_map_iff. split.
    - intros ([[[x y] h] col'] & [= <- <-] & Hin%list_elem_of_In). by exists x, y, h.
    - intros (x & y & h & Hin%list_elem_of_In & ->). by exists (x, y, h, col). }
  split_and!; [done| |].
  - intros c. rewrite Hkeys. split.
    + intros [?%elem_of_nil|(col & (x & y & h & ? & ?)%Hconv)]; [done|]. by exists x, y, h, col.
    + intros (x & y & h & col & ? & ?). right. exists col. apply Hconv. by exists x, y, h.
  - intros c col [?|?%Hconv]%Hget; done.
Qed.

(** C1, for a non-empty plate list.  With a non-zero plate height and a
    1 x 1 x 1 entry in the catalog, [brickify] returns; the cells its placed
    parts were placed on, taken together, are the cells [(x, y, rounded
    height)] of the grid, each exactly once; all the cells of a placed part
    held, in the grid, the color recorded in the part; and the cells of a
    placed part are the block of a catalog part around the recorded
    centre. *)
Theorem brickify_covers_grid (grid : list plate) (parts : list part) (pltheight : Q)
    (dat : string) :
  grid ≠ [] → ¬ (pltheight == 0)%Q → (1, 1, 1, dat) ∈ parts →
  ∃ cells trace,
    grid_cells pltheight grid = Ok cells ∧
    brickify_trace grid parts pltheight = Ok trace ∧
    brickify grid parts pltheight = Ok (map fst trace) ∧
    concat (map snd trace) ≡ₚ dict_keys cells ∧
    NoDup (concat (map snd trace)) ∧
    (∀ c, c ∈ dict_keys cells ↔
          ∃ x y h col, (x, y, h, col) ∈ grid ∧ c = (x, y, py_round (h / pltheight))) ∧
    (∀ pl coords c, (pl, coords) ∈ trace → c ∈ coords → dict_get cells c = Some pl.1.2) ∧
    Forall (placement_of parts) trace.
Proof.
  intros Hne Hplt Hunit.
  destruct (brickify_trace_runs grid parts pltheight Hne Hplt)
    as (cells & [m trace] & Hcells & Hrun & (_ & Hperm & _ & Hcol) & Hplaced & Hempty).
  simpl in *. rewrite Hempty in Hperm by (by exists (1, 1, 1, dat)). simpl in Hperm.
  destruct (grid_cells_spec grid pltheight cells Hplt Hcells) as (Hnd & Hkeys & _).
  exists cells, trace. split_and!; try done.
  - unfold brickify. by rewrite Hrun.
  - by rewrite Hperm.
Qed.

(** On the empty plate list the packer raises instead of returning the
    empty assembly. *)
Lemma brickify_empty_grid_raises :
  (1, 1, 1, "3024.dat"%string) ∈ sample_catalog ∧
  brickify [] sample_catalog LEGOPLATEHEIGHT = Raise ValueError.
Proof. split; [|done]. apply list_elem_of_further, list_elem_of_here. Qed.

Lemma brickify_covers_grid_witness :
  ∃ cells trace,
    grid_cells LEGOPLATEHEIGHT sample_grid = Ok cells ∧
    brickify_trace sample_grid sample_catalog LEGOPLATEHEIGHT = Ok trace ∧
    concat (map snd trace) ≡ₚ dict_keys cells.
Proof.
  destruct (brickify_covers_grid sample_grid sample_catalog LEGOPLATEHEIGHT "3024.dat")
    as (cells & trace & H1 & H2 & _ & H3 & _).
  - discriminate.
  - intros H. discriminate H.
  - apply list_elem_of_further, list_elem_of_here.
  - exists cells, trace. split; [exact H1|]. split; [exact H2 | exact H3].
Defined.



(** ** Model writer *)

Lemma string_app_cons (a : ascii) (s1 s2 : string) :
  (String a s1 ++ s2 = String a (s1 ++ s2))%string.
Proof. reflexivity. Qed.

Lemma string_app_assoc (s1 s2 s3 : string) :
  ((s1 ++ s2) ++ s3 = s1 ++ (s2 ++ s3))%string.
Proof.
  induction s1 as [|a s1 IH]; [reflexivity|].
  by rewrite !string_app_cons, IH.
Qed.

Lemma string_app_nil_r (s : string) : (s ++ EmptyString = s)%string.
Proof.
  induction s as [|a s IH]; [reflexivity|].
  by rewrite string_app_cons, IH.
Qed.

Lemma join_singleton (s : string) : join [s] = s.
Proof. apply string_app_nil_r. Qed.

Lemma join_app (l1 l2 : list string) :
  join (l1 ++ l2) = (join l1 ++ join l2)%string.
Proof.
  induction l1 as [|s l1 IH]; simpl; [reflexivity|].
  by rewrite IH, string_app_assoc.
Qed.

(** The line the loop builds is the line of the format. *)
Lemma format_parts_lines (parts : list scaled) (out : list string) :
  format_parts parts out = out ++ map spec_line parts.
Proof.
  revert out. induction parts as [|[[[[[x y] h] dat] color] rotated] parts IH];
    intros out; simpl; [by rewrite app_nil_r|].
  rewrite IH, <- app_assoc. do 2 f_equal.
  unfold swap_matrix, identity_matrix.
  destruct rotated; rewrite !string_app_assoc; reflexivity.
Qed.

Lemma count_nl_app (s1 s2 : string) :
  count_nl (s1 ++ s2)%string = (count_nl s1 + count_nl s2)%nat.
Proof.
  induction s1 as [|a s1 IH]; [reflexivity|].
  rewrite string_app_cons. simpl. rewrite IH. lia.
Qed.

Lemma count_nl_digits (d : Decimal.uint) :
  count_nl (DecimalString.NilEmpty.string_of_uint d) = 0%nat.
Proof. induction d; simpl; done. Qed.

Lemma count_nl_py_str (n : Z) : count_nl (py_str n) = 0%nat.
Proof.
  unfold py_str, DecimalString.NilZero.string_of_int, DecimalString.NilZero.string_of_uint.
  destruct (Z.to_int n) as [d|d]; destruct d; simpl; try done; apply count_nl_digits.
Qed.

Lemma spec_line_one_line (p : scaled) :
  count_nl p.1.1.2 = 0%nat → count_nl (show_color p.1.2) = 0%nat →
  count_nl (spec_line p) = 1%nat.
Proof.
  destruct p as [[[[[x y] h] dat] color] rotated]. simpl. intros Hdat Hcol.
  rewrite !count_nl_app, !count_nl_py_str, Hcol, Hdat.
  by destruct rotated.
Qed.

(** C9.  The text [_formatoutput] returns is the header, then for every
    part, in order, the line [1 <color> <x> <height> <y> <matrix> <part>]
    (height before y), the matrix being the identity for an unrotated part
    and the 90-degree swap for a rotated one, then the line [0].  A part
    whose identifier and color token hold no line end takes exactly one
    line. *)
Theorem formatoutput_layout (parts : list scaled) (outfile : string) :
  _formatoutput parts outfile
  = (header outfile ++ join (map spec_line parts) ++ "0" ++ nl)%string ∧
  (∀ x y h dat color rotated,
     (x, y, h, dat, color, rotated) ∈ parts →
     spec_line (x, y, h, dat, color, rotated)
     = ("1 " ++ show_color color ++ " " ++ py_str x ++ " " ++ py_str h ++ " " ++ py_str y
        ++ " " ++ (if rotated then "0 0 -1 0 1 0 1 0 0" else "1 0 0 0 1 0 0 0 1")
        ++ " " ++ dat ++ nl)%string ∧
     (count_nl dat = 0%nat → count_nl (show_color color) = 0%nat →
      count_nl (spec_line (x, y, h, dat, color, rotated)) = 1%nat)).
Proof.
  split.
  - unfold _formatoutput.
    by rewrite format_parts_lines, !join_app, !join_singleton, string_app_assoc.
  - intros x y h dat color rotated _. split; [done|].
    apply (spec_line_one_line (x, y, h, dat, color, rotated)).
Qed.

Lemma formatoutput_layout_witness :
  count_nl (spec_line (10, 20, -8, "3024.dat"%string, ColorId 4, false)) = 1%nat.
Proof.
  destruct (formatoutput_layout [(10, 20, -8, "3024.dat"%string, ColorId 4, false)]
              "out.ldr") as [_ Hline].
  apply Hline; [apply list_elem_of_here | reflexivity | reflexivity].
Defined.

(** * Further properties *)

(** ** Sector flags *)

Lemma mod_div_bit (f : Z) (n : Z) :
  0 <= n → f mod 2 ^ (n + 1) / 2 ^ n = (f / 2 ^ n) mod 2.
Proof.
  intros Hn. assert (Hp : 0 < 2 ^ n) by (apply Z.pow_pos_nonneg; lia).
  rewrite Z.pow_add_r, Z.pow_1_r by lia.
  rewrite Z.rem_mul_r by lia.
  rewrite Z.mul_comm, Z.div_add by lia.
  rewrite Z.div_small by (apply Z.mod_pos_bound; lia). lia.
Qed.

Lemma py_bool_bit (f n : Z) : 0 <= n → py_bool ((f / 2 ^ n) mod 2) = Z.testbit f n.
Proof.
  intros Hn. rewrite <- Z.testbit_spec' by done. unfold py_bool.
  by destruct (Z.testbit f n).
Qed.

(** X1.  The three flags [_levparse] stores for a sector are bits 0, 7 and
    10 of the flag value (1 = no sky, 128 = no floor, 1024 = no walls), for
    every integer, negative ones in two's complement included. *)
Theorem sector_flags_bits (flagvalue : Z) :
  sector_flags flagvalue
  = (Z.testbit flagvalue 0, Z.testbit flagvalue 7, Z.testbit flagvalue 10).
Proof.
  unfold sector_flags.
  change 256 with (2 ^ (7 + 1)). change 128 with (2 ^ 7).
  change 2048 with (2 ^ (10 + 1)). change 1024 with (2 ^ 10).
  rewrite !mod_div_bit, !py_bool_bit by lia.
  rewrite <- (py_bool_bit flagvalue 0) by lia.
  by rewrite Z.pow_0_r, Z.div_1_r.
Qed.

(** ** Polygon area *)








Lemma py_index_last {A : Type} (l : list A) (a : A) : py_index (l ++ [a]) (-1) = Ok a.
Proof.
  unfold py_index. rewrite length_app. simpl length.
  destruct (Z.ltb_spec (-1) 0); [|lia].
  destruct (Z.leb_spec 0 (-1 + Z.of_nat (length l + 1))); [|lia].
  destruct (Z.ltb_spec (-1 + Z.of_nat (length l + 1)) (Z.of_nat (length l + 1))); [|lia].
  simpl. replace (Z.to_nat (-1 + Z.of_nat (length l + 1))) with (length l) by lia.
  by rewrite list_lookup_middle.
Qed.

Lemma py_index_first {A : Type} (l : list A) (a : A) : py_index (a :: l) 0 = Ok a.
Proof. unfold py_index. simpl length. destruct (Z.ltb_spec 0 (Z.of_nat (S (length l)))); [done|lia]. Qed.

(** The value [_polygonarea] returns on a list given by its first point,
    its middle and its last point. *)
Lemma polygonarea_ends (a z : point) (l : list point) :
  _polygonarea (a :: l ++ [z])
  = Ok (Qsum (shoelace (a :: l ++ [z]) ++ [cross_term z a]) / 2)%Q.
Proof.
  unfold _polygonarea.
  pose proof (py_index_last (a :: l) z) as Hlast. rewrite <- app_comm_cons in Hlast.
  rewrite Hlast, py_index_first. done.
Qed.

Lemma polygonarea_Ok (crd : list point) : crd ≠ [] → ∃ a, _polygonarea crd = Ok a.
Proof.
  destruct crd as [|a l]; [done|]. intros _.
  destruct (rev l) as [|z k] eqn:Hrev;
    apply (f_equal (@rev point)) in Hrev; rewrite rev_involutive in Hrev; subst l.
  - by eexists.
  - simpl. rewrite polygonarea_ends. by eexists.
Qed.



(** ** Wall refiner: when it succeeds and what it keeps *)

Lemma mapR_all_Ok {A B : Type} (f : A → result B) (l : list A) :
  (∀ a, a ∈ l → ∃ b, f a = Ok b) → ∃ out, mapR f l = Ok out.
Proof.
  induction l as [|a l IH]; intros H; simpl; [by eexists|].
  destruct (H a) as [b ->]; [apply list_elem_of_here|].
  destruct IH as [bs ->]; [intros a' Ha'; by apply H, list_elem_of_further|].
  simpl. by eexists.
Qed.

Lemma refine_wall_Ok_iff (lev : list raw_sector) (sec : raw_sector) (w : raw_wall) :
  (∃ ws, refine_wall lev sec w = Ok ws) ↔
  w_adjoin w = -1 ∨ - Z.of_nat (length lev) <= w_adjoin w < Z.of_nat (length lev).
Proof.
  unfold refine_wall. destruct (Z.eqb_spec (w_adjoin w) (-1)) as [Heq|Hne].
  - split; [by left | by eexists].
  - split.
    + intros [ws Hws]. right.
      destruct (decide (- Z.of_nat (length lev) <= w_adjoin w < Z.of_nat (length lev)))
        as [|Hout]; [done|].
      rewrite py_index_out_of_range in Hws by lia. done.
    + intros [?|Hin]; [done|].
      destruct (decide (w_adjoin w < 0)).
      * destruct (py_index_wraps lev (w_adjoin w)) as (ad & _ & ->); [lia|]. by eexists.
      * destruct (py_index_in_range lev (w_adjoin w)) as (ad & _ & ->); [lia|]. by eexists.
Qed.

Lemma refine_walls_all_Ok (lev : list raw_sector) (sec : raw_sector) (ws : list raw_wall)
    (swalls : list wall) (origw : list (point * point)) :
  (∀ w, w ∈ ws → ∃ new, refine_wall lev sec w = Ok new) →
  ∃ r, refine_walls lev sec ws swalls origw = Ok r.
Proof.
  revert swalls origw. induction ws as [|w ws IH]; intros swalls origw H; simpl.
  - by eexists.
  - destruct (H w) as [new ->]; [apply list_elem_of_here|]. simpl.
    apply IH. intros w' Hw'. by apply H, list_elem_of_further.
Qed.

Lemma refine_wall_length (lev : list raw_sector) (sec : raw_sector) (w : raw_wall)
    (ws : list wall) :
  refine_wall lev sec w = Ok ws → (length ws <= 2)%nat.
Proof.
  unfold refine_wall. destruct (w_adjoin w =? -1); [by intros [= <-]; simpl; lia|].
  destruct (py_index lev (w_adjoin w)) as [ad|e]; simpl; [|done].
  intros [= <-]. rewrite length_app.
  destruct (Qlt_bool _ _), (Qlt_bool _ _); simpl; lia.
Qed.

Lemma concat_length_bound {A B : Type} (P : A → list B → Prop) (n : nat)
    (l : list A) (wss : list (list B)) :
  Forall2 P l wss → (∀ a ws, P a ws → (length ws <= n)%nat) →
  (length (concat wss) <= n * length l)%nat.
Proof.
  intros H Hn. induction H as [|a ws l wss Hp _ IH]; simpl; [lia|].
  rewrite length_app. specialize (Hn a ws Hp). lia.
Qed.

(** X3.  [_levrefine] returns exactly when every sector has at least one
    wall and every adjoin is [-1] or a valid Python index into the sector
    list, from minus the number of sectors up to, but excluding, that
    number.  Otherwise it raises, and what it raises is [IndexError]. *)
Theorem levrefine_succeeds_iff (lev : list raw_sector) :
  ((∃ out, _levrefine lev = Ok out) ↔
   ∀ sec, sec ∈ lev →
     s_walls sec ≠ [] ∧
     ∀ w, w ∈ s_walls sec →
       w_adjoin w = -1 ∨ - Z.of_nat (length lev) <= w_adjoin w < Z.of_nat (length lev)) ∧
  (∀ e, _levrefine lev = Raise e → e = IndexError).
Proof.
  split; [|apply levrefine_Raise]. split.
  - intros [out Hout] sec Hsec. split.
    + intros Hempty.
      assert (Hr : refine_sector lev sec = Raise IndexError).
      { unfold refine_sector. by rewrite Hempty. }
      destruct (mapR_Raise _ _ _ _ Hsec Hr) as [e He].
      unfold _levrefine in Hout. congruence.
    + intros w Hw. apply (refine_wall_Ok_iff lev sec w).
      destruct (refine_wall lev sec w) as [ws|e] eqn:Hws; [by eexists|].
      destruct (refine_sector_Raise lev sec w e Hw Hws) as [e1 He1].
      destruct (mapR_Raise _ _ _ _ Hsec He1) as [e2 He2].
      unfold _levrefine in Hout. congruence.
  - intros Hall. apply mapR_all_Ok. intros sec Hsec.
    destruct (Hall sec Hsec) as [Hne Hadj]. unfold refine_sector.
    destruct (polygonarea_Ok (map w_start (s_walls sec))) as [a ->];
      [by destruct (s_walls sec)|]. simpl.
    destruct (refine_walls_all_Ok lev sec (s_walls sec) [] []) as [[swalls origw] ->].
    { intros w Hw. by apply refine_wall_Ok_iff, Hadj. }
    simpl. by eexists.
Qed.

(** X4.  When [_levrefine] returns, it returns one sector per input
    sector, in the same order; textures, offsets, altitudes and the three
    flags are copied; the boundary loop is the list of the raw walls' end
    points in wall order; the area is the absolute value of what
    [_polygonarea] gives on the walls' start points, hence not negative; and
    there are at most two refined walls per raw wall. *)
Theorem levrefine_keeps (lev : list raw_sector) (out : list sector) :
  _levrefine lev = Ok out →
  Forall2 (fun sec rs =>
             (flrtx rs, flrox rs, flroy rs) = (s_flrtx sec, s_flrx sec, s_flry sec) ∧
             (ceiltx rs, ceilox rs, ceiloy rs) = (s_ceiltx sec, s_ceilx sec, s_ceily sec) ∧
             (flralt rs, ceilalt rs) = (s_flralt sec, s_ceilalt sec) ∧
             (opensky rs, openflr rs, nowalls rs)
             = (s_opensky sec, s_openflr sec, s_nowalls sec) ∧
             origwalls rs = map (fun w => (w_start w, w_end w)) (s_walls sec) ∧
             (∃ a, _polygonarea (map w_start (s_walls sec)) = Ok a ∧ area rs = Qabs a) ∧
             (0 <= area rs)%Q ∧
             (length (walls rs) <= 2 * length (s_walls sec))%nat)
          lev out.
Proof.
  intros Hout. apply mapR_Ok in Hout.
  eapply Forall2_impl; [exact Hout|]. clear Hout. intros sec rs. simpl.
  unfold refine_sector.
  destruct (_polygonarea _) as [a|e] eqn:Ha; simpl; [|done].
  destruct (refine_walls lev sec (s_walls sec) [] []) as [[swalls origw]|e] eqn:Hws;
    simpl; [|done].
  intros [= <-]. simpl.
  destruct (refine_walls_Ok _ _ _ _ _ _ _ Hws) as (wss & Hwss & -> & ->).
  split_and!; try done.
  - by exists a.
  - apply Qabs_nonneg.
  - simpl. apply mapR_Ok in Hwss.
    apply (concat_length_bound _ 2 _ _ Hwss). intros w ws. apply refine_wall_length.
Qed.

Lemma levrefine_keeps_witness :
  ∃ out, _levrefine stepped_level = Ok out ∧ length out = length stepped_level.
Proof.
  destruct (_levrefine stepped_level) as [out|e] eqn:Hout; [|discriminate Hout].
  exists out. split; [reflexivity|].
  symmetry. exact (Forall2_length _ _ _ (levrefine_keeps stepped_level out Hout)).
Defined.

Lemma levrefine_succeeds_iff_witness :
  ∃ out, _levrefine stepped_level = Ok out.
Proof.
  destruct (levrefine_succeeds_iff stepped_level) as [[_ Hok] _].
  apply Hok. intros sec Hsec.
  repeat (apply elem_of_cons in Hsec as [->|Hsec]);
    [| |by apply elem_of_nil in Hsec].
  - split; [discriminate|]. intros w Hw.
    repeat (apply elem_of_cons in Hw as [->|Hw]); [right; simpl; lia..|by apply elem_of_nil in Hw].
  - split; [discriminate|]. intros w Hw.
    repeat (apply elem_of_cons in Hw as [->|Hw]); [right; simpl; lia..|by apply elem_of_nil in Hw].
Defined.

(** ** Sorting *)

Lemma insert_by_split {A : Type} (le : A → A → bool) (x : A) (F T : list A) :
  (∀ y, y ∈ F → le y x = true) →
  match T with [] => True | t :: _ => le t x = false end →
  insert_by le x (F ++ T) = F ++ x :: T.
Proof.
  intros HF HT. induction F as [|y F IH]; simpl.
  - destruct T as [|t T]; [done|]. simpl. by rewrite HT.
  - rewrite HF by apply list_elem_of_here. f_equal. apply IH.
    intros z Hz. by apply HF, list_elem_of_further.
Qed.

Lemma filter_head_true {A : Type} (f : A → bool) (l : list A) :
  match List.filter f l with [] => True | t :: _ => f t = true end.
Proof.
  destruct (List.filter f l) as [|t k] eqn:H; [done|].
  assert (Hin : In t (List.filter f l)) by (rewrite H; by left).
  by apply filter_In in Hin as [_ ?].
Qed.

Lemma filter_snoc {A : Type} (f : A → bool) (l : list A) (x : A) :
  List.filter f (l ++ [x]) = List.filter f l ++ (if f x then [x] else []).
Proof. by rewrite List.filter_app. Qed.

(** A stable sort on a boolean key is a partition. *)
Lemma py_sort_bool {A : Type} (key : A → bool) (reverse : bool) (l : list A) :
  py_sort bool_leb key reverse l
  = if reverse
    then List.filter key l ++ List.filter (fun e => negb (key e)) l
    else List.filter (fun e => negb (key e)) l ++ List.filter key l.
Proof.
  unfold py_sort.
  set (le := fun a b => if reverse then bool_leb (key b) (key a) else bool_leb (key a) (key b)).
  set (parted := fun d : list A =>
         if reverse then List.filter key d ++ List.filter (fun e => negb (key e)) d
         else List.filter (fun e => negb (key e)) d ++ List.filter key d).
  assert (Hgen : ∀ done, fold_left (fun acc x => insert_by le x acc) l (parted done)
                         = parted (done ++ l)).
  { induction l as [|x l IH]; intros done; simpl; [by rewrite app_nil_r|].
    replace (insert_by le x (parted done)) with (parted (done ++ [x])).
    { rewrite IH, <- app_assoc. done. }
    unfold parted, le. rewrite !filter_snoc.
    destruct reverse, (key x) eqn:Hx; simpl; rewrite ?app_nil_r.
    - rewrite <- app_assoc. symmetry. apply insert_by_split.
      + intros y Hy%list_elem_of_In%filter_In. destruct Hy as [_ Hy].
        cbn beta. by rewrite Hx, Hy.
      + pose proof (filter_head_true (fun e => negb (key e)) done) as Hh.
        destruct (List.filter _ done) as [|t k]; [done|].
        apply negb_true_iff in Hh. by rewrite Hx, Hh.
    - rewrite app_assoc. symmetry. apply insert_by_all_le.
      intros y _. cbn beta. rewrite Hx. by destruct (key y).
    - rewrite app_assoc. symmetry. apply insert_by_all_le.
      intros y _. cbn beta. rewrite Hx. by destruct (key y).
    - rewrite <- app_assoc. symmetry. apply insert_by_split.
      + intros y Hy%list_elem_of_In%filter_In. destruct Hy as [_ Hy].
        apply negb_true_iff in Hy. cbn beta. by rewrite Hx, Hy.
      + pose proof (filter_head_true key done) as Hh.
        destruct (List.filter key done) as [|t k]; [done|]. by rewrite Hx, Hh. }
  specialize (Hgen []). unfold parted in *. by destruct reverse.
Qed.

(** X5.  The sort of [dfmap] groups the sectors by their no-floor flag
    and does nothing else: with [prioritylarge] set, the sectors with a
    floor come first and the pits last; with it cleared, the pits come
    first; inside each group the sectors keep their parse order, whatever
    their areas. *)
Theorem sort_sectors_partition (prioritylarge : bool) (lev : list sector) :
  sort_sectors prioritylarge lev
  = if prioritylarge
    then List.filter (fun e => negb (openflr e)) lev ++ List.filter openflr lev
    else List.filter openflr lev ++ List.filter (fun e => negb (openflr e)) lev.
Proof.
  unfold sort_sectors. rewrite py_sort_bool. by destruct prioritylarge.
Qed.

Lemma insert_by_perm {A : Type} (le : A → A → bool) (x : A) (l : list A) :
  insert_by le x l ≡ₚ x :: l.
Proof.
  induction l as [|y l IH]; simpl; [done|].
  destruct (le y x); [|done]. rewrite IH. apply perm_swap.
Qed.

Lemma py_sort_perm {A K : Type} (leb : K → K → bool) (key : A → K) (reverse : bool)
    (l : list A) :
  py_sort leb key reverse l ≡ₚ l.
Proof.
  unfold py_sort.
  set (le := fun a b => if reverse then leb (key b) (key a) else leb (key a) (key b)).
  assert (Hgen : ∀ acc, fold_left (fun acc x => insert_by le x acc) l acc ≡ₚ acc ++ l).
  { induction l as [|x l IH]; intros acc; simpl; [by rewrite app_nil_r|].
    rewrite IH, insert_by_perm. simpl. apply Permutation_middle. }
  apply (Hgen []).
Qed.

Section StableDescending.
Context {A : Type} (key : A → Z) (R : A → A → Prop).

Lemma insert_by_refined (x : A) (acc : list A) :
  StronglySorted (refined_order key R) acc → (∀ y, y ∈ acc → R y x) →
  StronglySorted (refined_order key R) (insert_by (fun a b => Z.leb (key b) (key a)) x acc).
Proof.
  induction acc as [|y acc IH]; intros Hs Hx; simpl.
  - repeat constructor.
  - apply StronglySorted_inv in Hs as [Hs Hy].
    destruct (Z.leb_spec (key x) (key y)) as [Hle|Hgt].
    + constructor.
      * apply IH; [done|]. intros z Hz. by apply Hx, list_elem_of_further.
      * apply Forall_forall. intros z Hz.
        rewrite insert_by_perm in Hz. apply elem_of_cons in Hz as [->|Hz].
        -- unfold refined_order. pose proof (Hx y (list_elem_of_here _ _)).
           destruct (decide (key x = key y)); [by right | left; lia].
        -- rewrite Forall_forall in Hy. by apply Hy.
    + constructor; [by constructor|].
      constructor; [left; lia|].
      apply Forall_forall. intros z Hz. rewrite Forall_forall in Hy.
      destruct (Hy z Hz) as [?|[? _]]; left; lia.
Qed.

Lemma py_sort_refined (l : list A) :
  StronglySorted R l → StronglySorted (refined_order key R) (py_sort Z.leb key true l).
Proof.
  unfold py_sort.
  assert (Hgen : ∀ acc, StronglySorted (refined_order key R) acc → StronglySorted R l →
                        (∀ a b, a ∈ acc → b ∈ l → R a b) →
                        StronglySorted (refined_order key R)
                          (fold_left (fun acc x =>
                             insert_by (fun a b => Z.leb (key b) (key a)) x acc) l acc)).
  { induction l as [|x l IH]; intros acc Hacc Hl Hal; simpl; [done|].
    apply StronglySorted_inv in Hl as [Hl Hx]. apply IH; [|done|].
    - apply insert_by_refined; [done|]. intros y Hy. apply Hal; [done|apply list_elem_of_here].
    - intros a b Ha Hb. rewrite insert_by_perm in Ha. apply elem_of_cons in Ha as [->|Ha].
      + rewrite Forall_forall in Hx. by apply Hx.
      + apply Hal; [done | by apply list_elem_of_further]. }
  intros Hl. apply Hgen; [constructor|done|]. by intros a b ?%elem_of_nil.
Qed.
End StableDescending.

Lemma StronglySorted_weaken {A : Type} (R S : A → A → Prop) (l : list A) :
  (∀ a b, R a b → S a b) → StronglySorted R l → StronglySorted S l.
Proof.
  intros HRS. induction 1 as [|a l Hs IH Ha]; constructor; [done|].
  eapply Forall_impl; [exact Ha|]. intros b. apply HRS.
Qed.

Lemma StronglySorted_any {A : Type} (l : list A) : StronglySorted (fun _ _ => True) l.
Proof. induction l; constructor; [done|]. by apply Forall_forall. Qed.

Lemma StronglySorted_snoc {A : Type} (R : A → A → Prop) (l : list A) (p a : A) :
  StronglySorted R (l ++ [p]) → a ∈ l → R a p.
Proof.
  induction l as [|b l IH]; simpl; intros Hs Ha; [by apply elem_of_nil in Ha|].
  apply StronglySorted_inv in Hs as [Hs Hb].
  apply elem_of_cons in Ha as [->|Ha]; [|by apply IH].
  rewrite Forall_forall in Hb. apply Hb, elem_of_app. right. apply list_elem_of_here.
Qed.

Lemma partparse_collect_spec (rows acc : list part) :
  partparse_collect rows acc
  = acc ++ flat_map (fun r : part =>
                       if r.1.1.1 =? r.1.1.2 then [r]
                       else [r; (r.1.1.2, r.1.1.1, r.1.2, r.2)]) rows.
Proof.
  revert acc. induction rows as [|[[[x y] z] dat] rows IH]; intros acc; simpl.
  - by rewrite app_nil_r.
  - rewrite IH. destruct (x =? y); by rewrite <- !app_assoc.
Qed.

Lemma partparse_rows_sorted (rows : list part) : StronglySorted part_ge (partparse_rows rows).
Proof.
  unfold partparse_rows, partparse_sort. cbv zeta.
  eapply StronglySorted_weaken; [|apply py_sort_refined, py_sort_refined, py_sort_refined,
                                   StronglySorted_any].
  intros a b. unfold refined_order, part_ge. lia.
Qed.

Lemma partparse_rows_perm (rows : list part) :
  partparse_rows rows ≡ₚ partparse_collect rows [].
Proof. unfold partparse_rows, partparse_sort. cbv zeta. by rewrite !py_sort_perm. Qed.

Lemma partparse_rows_elem (rows : list part) (p : part) :
  p ∈ partparse_rows rows ↔
  ∃ x y z dat, (x, y, z, dat) ∈ rows ∧ (p = (x, y, z, dat) ∨ p = (y, x, z, dat)).
Proof.
  rewrite partparse_rows_perm, partparse_collect_spec. simpl.
  rewrite list_elem_of_In, in_flat_map. split.
  - intros ([[[x y] z] dat] & Hr%list_elem_of_In & Hp). exists x, y, z, dat. split; [done|].
    simpl in Hp. destruct (Z.eqb_spec x y) as [->|_]; simpl in Hp.
    + destruct Hp as [<-|[]]. by left.
    + destruct Hp as [<-|[<-|[]]]; [by left | by right].
  - intros (x & y & z & dat & Hr%list_elem_of_In & Hp). exists (x, y, z, dat). split; [done|].
    simpl. destruct (Z.eqb_spec x y) as [->|_]; simpl.
    + destruct Hp as [->| ->]; by left.
    + destruct Hp as [->| ->]; [by left | by right; left].
Qed.

(** X6.  The catalog [_partparse] builds from the rows of the parts file
    holds every row, and the 90-degree rotation of every row, and nothing
    else; it is in descending order of height, then of the second
    dimension, then of the first. *)
Theorem partparse_rows_order (rows : list part) :
  StronglySorted part_ge (partparse_rows rows) ∧
  ∀ p, p ∈ partparse_rows rows ↔
       ∃ x y z dat, (x, y, z, dat) ∈ rows ∧ (p = (x, y, z, dat) ∨ p = (y, x, z, dat)).
Proof. split; [apply partparse_rows_sorted | apply partparse_rows_elem]. Qed.

Lemma partparse_rows_order_witness :
  (4, 2, 3, "3020.dat"%string)
  ∈ partparse_rows [(1, 1, 1, "3024.dat"); (2, 4, 3, "3020.dat")]%string.
Proof.
  apply (partparse_rows_order [(1, 1, 1, "3024.dat"); (2, 4, 3, "3020.dat")]%string).
  exists 2, 4, 3, "3020.dat"%string.
  split; [apply list_elem_of_further, list_elem_of_here | by right].
Defined.

(** X7.  If the parts file lists a 1 x 1 x 1 part and no part has a
    dimension below one, the catalog ends with a 1 x 1 x 1 part, as the
    packer expects of its last pass. *)
Theorem partparse_rows_unit_last (rows : list part) (dat : string) :
  (1, 1, 1, dat) ∈ rows →
  (∀ p, p ∈ rows → 1 <= p.1.1.1 ∧ 1 <= p.1.1.2 ∧ 1 <= p.1.2) →
  ∃ p, last (partparse_rows rows) = Some p ∧ p.1 = (1, 1, 1).
Proof.
  intros Hunit Hdims.
  assert (Hin : (1, 1, 1, dat) ∈ partparse_rows rows).
  { apply partparse_rows_elem. exists 1, 1, 1, dat. auto. }
  pose proof (partparse_rows_sorted rows) as Hs.
  assert (Hall : ∀ p, p ∈ partparse_rows rows → 1 <= p.1.1.1 ∧ 1 <= p.1.1.2 ∧ 1 <= p.1.2).
  { intros p (x & y & z & d & Hr & [->| ->])%partparse_rows_elem;
      specialize (Hdims _ Hr); simpl in *; lia. }
  destruct (partparse_rows rows) as [|q l] eqn:Hl using rev_ind;
    [by apply elem_of_nil in Hin|]. clear IHl.
  exists q. rewrite last_snoc. split; [done|].
  apply elem_of_app in Hin as [Hin|Hin%list_elem_of_singleton].
  - pose proof (StronglySorted_snoc _ _ _ _ Hs Hin) as Hge.
    destruct (Hall q) as (? & ? & ?); [apply elem_of_app; right; apply list_elem_of_here|].
    destruct q as [[[x y] z] d]. unfold part_ge in Hge. simpl in *.
    repeat f_equal; lia.
  - by subst.
Qed.

Lemma partparse_rows_unit_last_witness :
  ∃ p, last (partparse_rows [(1, 1, 1, "3024.dat"); (2, 4, 3, "3020.dat")]%string) = Some p ∧
       p.1 = (1, 1, 1).
Proof.
  apply (partparse_rows_unit_last _ "3024.dat").
  - apply list_elem_of_here.
  - intros p Hp. repeat (apply elem_of_cons in Hp as [->|Hp]); simpl; [lia..|].
    by apply elem_of_nil in Hp.
Defined.

(** ** The wall height loop: how many plates, and where *)



Section WallColumnPlates.
Variables (palette : list palette_entry) (directrgb : bool) (zscale : Q).
Variables (teximg : image) (texposx : Z) (tile : Z * Z).
Variables (bot top offy : Q) (topanchor : bool).

End WallColumnPlates.



(** ** Line tiling: the cells stay between the end points *)

Lemma py_int_mono (x y : Q) : (x <= y)%Q → py_int x <= py_int y.
Proof.
  unfold Qle, py_int. destruct x as [a b], y as [a' b']; simpl. intros H.
  rewrite <- (Z.quot_mul_cancel_r a (Z.pos b) (Z.pos b')) by lia.
  rewrite <- (Z.quot_mul_cancel_r a' (Z.pos b') (Z.pos b)) by lia.
  rewrite (Z.mul_comm (Z.pos b') (Z.pos b)). apply Z.quot_le_mono; lia.
Qed.

Lemma py_int_le_self (d : Q) : (0 <= d)%Q → (inject_Z (py_int d) <= d)%Q.
Proof. intros H. rewrite py_int_floor by done. apply Qfloor_le. Qed.

(** A point sampled on the way from [a] to [b] lies between them. *)
Lemma sample_between (a b divisor e : Q) :
  (1 <= divisor)%Q → (0 <= e)%Q → (e <= divisor)%Q →
  let x := (a + (b - a) / divisor * e)%Q in
  ((a <= x)%Q ∧ (x <= b)%Q) ∨ ((b <= x)%Q ∧ (x <= a)%Q).
Proof.
  intros Hd He Hed x.
  set (t := (e / divisor)%Q).
  assert (Hx : (x == a + (b - a) * t)%Q).
  { unfold x, t. field. intros H. rewrite H in Hd. by apply Hd. }
  assert (Ht0 : (0 <= t)%Q) by (unfold t; apply Qle_shift_div_l; lra).
  assert (Ht1 : (t <= 1)%Q) by (unfold t; apply Qle_shift_div_r; lra).
  destruct (Qlt_le_dec b a) as [Hba|Hab]; [right | left]; rewrite Hx; split; nra.
Qed.

Lemma py_int_between (a b x : Q) :
  ((a <= x)%Q ∧ (x <= b)%Q) ∨ ((b <= x)%Q ∧ (x <= a)%Q) →
  Z.min (py_int a) (py_int b) <= py_int x <= Z.max (py_int a) (py_int b).
Proof.
  intros [[H1 H2]|[H1 H2]]; apply py_int_mono in H1, H2; lia.
Qed.

(** X9.  Every cell [_gettiles] returns lies in the box spanned by the
    cells of the two end points, whatever the square root and the step
    granularity; a horizontal or vertical wall thus stays in its row or
    column.  With the step of the module the function never raises, and the
    set it returns is not empty. *)
Theorem gettiles_in_box (fsqrt : Q → Q) (steps : Q) (p1 p2 : point) :
  (∀ tiles c, gettiles_with fsqrt steps p1 p2 = Ok tiles → c ∈ tiles →
     Z.min (py_int p1.1) (py_int p2.1) <= c.1 <= Z.max (py_int p1.1) (py_int p2.1) ∧
     Z.min (py_int p1.2) (py_int p2.2) <= c.2 <= Z.max (py_int p1.2) (py_int p2.2)) ∧
  ∃ tiles, _gettiles fsqrt p1 p2 = Ok tiles ∧ tiles ≠ ∅.
Proof.
  split.
  - intros tiles c. unfold gettiles_with.
    destruct (Qlt_bool _ _).
    { intros [= <-] Hc%elem_of_singleton. subst c. simpl. lia. }
    unfold py_div. destruct (Qeq_bool steps 0); simpl; [done|].
    set (length := fsqrt _).
    set (divisor := if Qlt_bool (length / steps) 1 then 1%Q else (length / steps)%Q).
    assert (Hdiv : (1 <= divisor)%Q).
    { unfold divisor. destruct (Qlt_bool (length / steps) 1) eqn:Hlt; [done|].
      apply Qlt_bool_false_iff in Hlt. by apply Qnot_lt_le. }
    intros [= <-] (p & -> & Hp)%elem_of_list_to_set%list_elem_of_fmap. simpl.
    apply elem_of_app in Hp as [Hp|Hp%list_elem_of_singleton]; [|subst p; lia].
    apply list_elem_of_fmap in Hp as (e & -> & He). simpl.
    unfold py_range in He. apply elem_of_seqZ in He.
    assert (He0 : (0 <= inject_Z e)%Q)
      by (change 0%Q with (inject_Z 0); rewrite <- Zle_Qle; lia).
    assert (He1 : (inject_Z e <= divisor)%Q).
    { apply Qle_trans with (inject_Z (py_int divisor)).
      - rewrite <- Zle_Qle. lia.
      - apply py_int_le_self. lra. }
    split; apply py_int_between, sample_between; done.
  - unfold _gettiles, gettiles_with.
    destruct (Qlt_bool _ _); [eexists; split; [done|]; set_solver|].
    unfold py_div. change (Qeq_bool TILINGSTEPS 0) with false. simpl.
    eexists. split; [done|]. rewrite map_app. simpl.
    intros Hempty. apply (not_elem_of_empty (C := gset (Z * Z)) (py_int p2.1, py_int p2.2)).
    rewrite <- Hempty. apply elem_of_list_to_set, elem_of_app. right.
    apply list_elem_of_here.
Qed.

Lemma gettiles_in_box_witness :
  _gettiles sqrt_down (0, 0)%Q (3 # 2, 0)%Q = Ok {[ (0, 0); (1, 0) ]} ∧
  Z.min (py_int 0) (py_int (3 # 2)) <= 1 <= Z.max (py_int 0) (py_int (3 # 2)).
Proof.
  split; [vm_compute; reflexivity|].
  destruct (gettiles_in_box sqrt_down TILINGSTEPS (0, 0)%Q (3 # 2, 0)%Q) as [Hbox _].
  destruct (Hbox {[ (0, 0); (1, 0) ]} (1, 0)) as [Hx _].
  - vm_compute. reflexivity.
  - apply elem_of_union. right. by apply elem_of_singleton.
  - exact Hx.
Defined.

(** ** Segment crossing *)










(** ** The tiles of a polygon *)

Lemma StronglySorted_seqZ (m : Z) (k : nat) : StronglySorted Z.lt (seqZ m (Z.of_nat k)).
Proof.
  revert m. induction k as [|k IH]; intros m; [constructor|].
  rewrite seqZ_cons by lia.
  replace (Z.pred (Z.of_nat (S k))) with (Z.of_nat k) by lia.
  constructor; [apply IH|].
  apply Forall_forall. intros y Hy%elem_of_seqZ. lia.
Qed.

Lemma StronglySorted_py_range (a b : Z) : StronglySorted Z.lt (py_range a b).
Proof.
  unfold py_range. destruct (Z_le_gt_dec (b - a) 0).
  - rewrite seqZ_nil by done. constructor.
  - replace (b - a) with (Z.of_nat (Z.to_nat (b - a))) by lia. apply StronglySorted_seqZ.
Qed.

Lemma StronglySorted_app_intro {A : Type} (R : A → A → Prop) (l1 l2 : list A) :
  StronglySorted R l1 → StronglySorted R l2 →
  (∀ a b, a ∈ l1 → b ∈ l2 → R a b) → StronglySorted R (l1 ++ l2).
Proof.
  intros H1 H2 H. induction H1 as [|a l1 Hs IH Ha]; simpl; [done|].
  constructor.
  - apply IH. intros x y Hx. apply H. by apply list_elem_of_further.
  - apply Forall_app. split; [done|].
    apply Forall_forall. intros y Hy. apply H; [apply list_elem_of_here|done].
Qed.

Lemma StronglySorted_NoDup {A : Type} (R : A → A → Prop) (l : list A) :
  (∀ a, ¬ R a a) → StronglySorted R l → NoDup l.
Proof.
  intros Hirr. induction 1 as [|a l Hs IH Ha]; constructor; [|done].
  intros Hin. rewrite Forall_forall in Ha. by apply (Hirr a), Ha.
Qed.

Section ColumnOrder.
Variable ws : list (point * point).
Variables offsetx offsety : Q.

(** A column scan only appends. *)
Lemma column_scan_app (column : Z) (ys : list Z) (c : Z) (tiles : list (Z * Z)) :
  column_scan ws offsetx offsety column ys c tiles
  = tiles ++ column_scan ws offsetx offsety column ys c [].
Proof.
  revert c tiles. induction ys as [|y ys IH]; intros c tiles; simpl.
  - by rewrite app_nil_r.
  - destruct (_ =? 0).
    + apply IH.
    + rewrite IH, (IH _ [_]). by rewrite <- app_assoc.
Qed.

Lemma column_scan_sorted (column : Z) (ys : list Z) (c : Z) :
  StronglySorted Z.lt ys →
  StronglySorted tile_lt (column_scan ws offsetx offsety column ys c []) ∧
  ∀ t, t ∈ column_scan ws offsetx offsety column ys c [] → t.1 = column ∧ t.2 ∈ ys.
Proof.
  intros Hs. revert c. induction Hs as [|y ys Hs IH Hy]; intros c; simpl.
  - split; [constructor|]. by intros t ?%elem_of_nil.
  - set (c' := count_crossings ws _ _ c).
    destruct (IH c') as [IH1 IH2].
    destruct (c' mod 2 =? 0).
    + split; [done|]. intros t Ht. destruct (IH2 t Ht). split; [done|].
      by apply list_elem_of_further.
    + rewrite column_scan_app. simpl. split.
      * constructor; [done|]. apply Forall_forall. intros t Ht.
        destruct (IH2 t Ht) as [Ht1 Ht2]. right. simpl. split; [done|].
        rewrite Forall_forall in Hy. by apply Hy.
      * intros t [->|Ht]%elem_of_cons; [split; [done|apply list_elem_of_here]|].
        destruct (IH2 t Ht). split; [done|]. by apply list_elem_of_further.
Qed.

Lemma columns_app (ys cols : list Z) (acc : list (Z * Z)) :
  fold_left (fun tiles column => column_scan ws offsetx offsety column ys 0 tiles) cols acc
  = acc ++ fold_left (fun tiles column => column_scan ws offsetx offsety column ys 0 tiles)
             cols [].
Proof.
  revert acc. induction cols as [|col cols IH]; intros acc; simpl.
  - by rewrite app_nil_r.
  - rewrite IH, (IH (column_scan _ _ _ _ _ _ [])), column_scan_app.
    by rewrite <- app_assoc.
Qed.

Lemma columns_sorted (ys cols : list Z) :
  StronglySorted Z.lt ys → StronglySorted Z.lt cols →
  let tiles :=
    fold_left (fun tiles column => column_scan ws offsetx offsety column ys 0 tiles)
              cols [] in
  StronglySorted tile_lt tiles ∧ ∀ t, t ∈ tiles → t.1 ∈ cols ∧ t.2 ∈ ys.
Proof.
  intros Hys Hs. induction Hs as [|col cols Hs IH Hcol]; simpl.
  - split; [constructor|]. by intros t ?%elem_of_nil.
  - rewrite columns_app. destruct IH as [IH1 IH2].
    destruct (column_scan_sorted col ys 0 Hys) as [Hc1 Hc2]. split.
    + apply StronglySorted_app_intro; [done..|].
      intros a b [Ha _]%Hc2 [Hb _]%IH2. left. rewrite Ha.
      rewrite Forall_forall in Hcol. by apply Hcol.
    + intros t [Ht|Ht]%elem_of_app.
      * destruct (Hc2 t Ht) as [-> ?]. split; [apply list_elem_of_here|done].
      * destruct (IH2 t Ht). split; [by apply list_elem_of_further|done].
Qed.
End ColumnOrder.

Lemma crossing_parity_true (ws : list (point * point)) (a b : point) :
  crossing_parity ws a b = true → ∃ w, w ∈ ws ∧ _intersect a b w.1 w.2 = true.
Proof.
  induction ws as [|w ws IH]; simpl; [done|].
  destruct (_intersect a b w.1 w.2) eqn:Hw.
  - intros _. exists w. split; [apply list_elem_of_here|done].
  - simpl. intros (w' & ? & ?)%IH. exists w'. split; [by apply list_elem_of_further|done].
Qed.

(** X12.  The tiles [_tilepolygon] returns come column by column from the
    left and upward within a column, so none is listed twice; and a tile is
    only returned in a column whose probe line [x = column + 1/2] has an
    end of some boundary segment strictly on its left and the other end of
    that segment on it or on its right. *)
Theorem tilepolygon_order_span (ws : list (point * point)) (tiles : list (Z * Z)) :
  _tilepolygon ws = Ok tiles →
  StronglySorted tile_lt tiles ∧ NoDup tiles ∧
  ∀ c y, (c, y) ∈ tiles →
    ∃ w, w ∈ ws ∧
      ((w.1.1 < inject_Z c + (1 # 2) ∧ inject_Z c + (1 # 2) <= w.2.1) ∨
       (w.2.1 < inject_Z c + (1 # 2) ∧ inject_Z c + (1 # 2) <= w.1.1))%Q.
Proof.
  intros Hrun.
  assert (Hsorted : StronglySorted tile_lt tiles).
  { revert Hrun. unfold _tilepolygon, tilepolygon_at.
    intros (ext & Hext & Hres)%bind_Ok_inv.
    destruct ext as [[[minx miny] maxx] maxy]. injection Hres as <-.
    apply columns_sorted; apply StronglySorted_py_range. }
  split; [done|]. split.
  { apply (StronglySorted_NoDup tile_lt); [|done]. unfold tile_lt. intros a. lia. }
  intros c y Hin.
  assert (Hext : ∃ minx miny maxx maxy, extents ws = Ok (minx, miny, maxx, maxy)).
  { revert Hrun. unfold _tilepolygon, tilepolygon_at.
    intros (ext & Hext & Hres)%bind_Ok_inv.
    destruct ext as [[[minx miny] maxx] maxy]. eauto. }
  destruct Hext as (minx & miny & maxx & maxy & Hext).
  destruct (tilepolygon_elem ws minx miny maxx maxy Hext) as (tiles' & Hrun' & Helem).
  rewrite Hrun in Hrun'. injection Hrun' as <-.
  destruct (proj1 (Helem c y) Hin) as (Hc & Hy & Hodd).
  replace y with (miny + Z.of_nat (Z.to_nat (y - miny))) in Hodd by lia.
  rewrite running_crossings_odd in Hodd.
  apply crossing_parity_true in Hodd as (w & Hw & Hcross).
  exists w. split; [done|].
  unfold probe_start, probe_end in Hcross.
  rewrite intersect_vertical in Hcross.
  - apply andb_prop in Hcross as [_ Hx].
    destruct (Qlt_bool w.1.1 _) eqn:H1, (Qlt_bool w.2.1 _) eqn:H2; try discriminate Hx.
    + left. apply Qlt_bool_iff in H1. apply Qlt_bool_false_iff in H2.
      split; [exact H1 | by apply Qnot_lt_le].
    + right. apply Qlt_bool_iff in H2. apply Qlt_bool_false_iff in H1.
      split; [exact H2 | by apply Qnot_lt_le].
  - rewrite inject_Z_plus.
    assert (Hk : (0 <= inject_Z (Z.of_nat (Z.to_nat (y - miny))))%Q)
      by (change 0%Q with (inject_Z 0); rewrite <- Zle_Qle; lia).
    generalize dependent (inject_Z (Z.of_nat (Z.to_nat (y - miny)))). generalize (inject_Z miny).
    intros; lra.
Qed.

Lemma tilepolygon_order_span_witness :
  ∃ tiles, _tilepolygon square2 = Ok tiles ∧ NoDup tiles ∧ (0, 1) ∈ tiles.
Proof.
  eexists. split; [reflexivity|].
  split.
  - apply (tilepolygon_order_span square2). reflexivity.
  - vm_compute. apply list_elem_of_further, list_elem_of_here.
Defined.

(** ** The colour matcher outside its premise, and the direct token *)

(** What the loop of [_matchcolor] can end in, from any state of its two
    locals. *)
Lemma matchcolor_loop_result (c : rgb) (pal : list palette_entry) (best : Z) (bestcol : option Z) :
  0 < best →
  match matchcolor_loop c pal best bestcol with
  | Ok i =>
      bestcol = Some i ∨
      ∃ e, e ∈ pal ∧ entry_id e = i ∧ diffs c (entry_rgb e) < best
  | Raise err =>
      err = UnboundLocalError ∧ bestcol = None ∧
      ∀ e, e ∈ pal → best <= diffs c (entry_rgb e)
  end.
Proof.
  revert best bestcol. induction pal as [|[[colorid name] crgb] pal IH]; intros best bestcol Hbest.
  - simpl. destruct bestcol as [i|]; [by left|]. split_and!; [done..|]. by intros e ?%elem_of_nil.
  - simpl. pose proof (diffs_nonneg c crgb) as Hnn.
    destruct (Z.eqb_spec (diffs c crgb) 0) as [Hz|Hnz].
    { right. exists (colorid, name, crgb). split_and!; [apply list_elem_of_here|done|].
      change (entry_rgb (colorid, name, crgb)) with crgb. lia. }
    destruct (Z.ltb_spec (diffs c crgb) best) as [Hlt|Hge].
    + specialize (IH (diffs c crgb) (Some colorid) ltac:(lia)).
      destruct (matchcolor_loop c pal (diffs c crgb) (Some colorid)) as [i|err].
      * right. destruct IH as [[= <-]|(e & He & Hid & Hd)].
        -- exists (colorid, name, crgb). split_and!; [apply list_elem_of_here|done|done].
        -- exists e. split_and!; [by apply list_elem_of_further|done|lia].
      * by destruct IH as (_ & ? & _).
    + specialize (IH best bestcol Hbest).
      destruct (matchcolor_loop c pal best bestcol) as [i|err].
      * destruct IH as [?|(e & He & Hid & Hd)]; [by left|].
        right. exists e. split_and!; [by apply list_elem_of_further|done|done].
      * destruct IH as (? & ? & Hall). split_and!; [done..|].
        intros e [->|He]%elem_of_cons; [done|by apply Hall].
Qed.

(** X13.  Without any premise on the channels or the palette:
    [_matchcolor] in matching mode fails exactly when no palette entry is
    closer than 768 to the triplet (so on the empty palette), the failure
    being the unbound local [bestcol]; and whatever it returns is the
    identifier of a palette entry closer than 768. *)
Theorem matchcolor_unbound (pal : list palette_entry) (c : rgb) :
  (_matchcolor pal c false = Raise UnboundLocalError ↔
   ∀ e, e ∈ pal → 768 <= diffs c (entry_rgb e)) ∧
  (∀ err, _matchcolor pal c false = Raise err → err = UnboundLocalError) ∧
  (∀ col, _matchcolor pal c false = Ok col →
     ∃ e, e ∈ pal ∧ col = ColorId (entry_id e) ∧ diffs c (entry_rgb e) < 768).
Proof.
  unfold _matchcolor.
  pose proof (matchcolor_loop_result c pal 768 None ltac:(lia)) as H.
  destruct (matchcolor_loop c pal 768 None) as [i|err]; simpl.
  - destruct H as [?|(e & He & Hid & Hd)]; [done|]. split_and!.
    + split; [done|]. intros Hall. specialize (Hall e He). lia.
    + done.
    + intros col [= <-]. exists e. by rewrite Hid.
  - destruct H as (-> & _ & Hall). split_and!; [done| |done].
    by intros err [= <-].
Qed.

Lemma matchcolor_unbound_witness :
  _matchcolor [(0, "far"%string, (1000, 0, 0))] (0, 0, 0) false = Raise UnboundLocalError.
Proof.
  apply (matchcolor_unbound [(0, "far"%string, (1000, 0, 0))] (0, 0, 0)).
  intros e He. apply list_elem_of_singleton in He. subst e. simpl. lia.
Defined.

(** Every 8-bit value prints as two digits that read back as the value. *)
Lemma read_hex02_py_hex02 (v : Z) : channel v → read_hex02 (py_hex02 v) = Some v.
Proof.
  intros Hv.
  assert (Hall : Forall (fun v => read_hex02 (py_hex02 v) = Some v) (seqZ 0 256)).
  { apply (bool_decide_unpack _). by vm_compute. }
  rewrite Forall_forall in Hall. apply Hall, elem_of_seqZ. unfold channel in Hv. lia.
Qed.

Lemma read_hex02_shape (s : string) (v : Z) :
  read_hex02 s = Some v → ∃ a b, s = String a (String b EmptyString).
Proof.
  destruct s as [|a [|b [|? ?]]]; simpl; try done. eauto.
Qed.

(** X14.  In direct mode, on a triplet of 8-bit channels, [_matchcolor]
    returns a token of nine characters, [0x2] and two hexadecimal digits
    per channel, that reads back as the triplet; so two such triplets with
    the same token are equal. *)
Theorem direct_token_round_trip (pal : list palette_entry) (c : rgb) :
  valid_rgb c →
  ∃ t, _matchcolor pal c true = Ok (ColorHex t) ∧
       String.length t = 9%nat ∧
       read_token t = Some c ∧
       ∀ c', valid_rgb c' → _matchcolor pal c' true = Ok (ColorHex t) → c' = c.
Proof.
  assert (Hread : ∀ c, valid_rgb c →
            String.length (direct_token c) = 9%nat ∧ read_token (direct_token c) = Some c).
  { intros [[r g] b] (Hr & Hg & Hb). simpl in Hr, Hg, Hb.
    pose proof (read_hex02_py_hex02 r Hr) as Hr'.
    pose proof (read_hex02_py_hex02 g Hg) as Hg'.
    pose proof (read_hex02_py_hex02 b Hb) as Hb'.
    destruct (read_hex02_shape _ _ Hr') as (r1 & r0 & Er).
    destruct (read_hex02_shape _ _ Hg') as (g1 & g0 & Eg).
    destruct (read_hex02_shape _ _ Hb') as (b1 & b0 & Eb).
    unfold direct_token. rewrite Er, Eg, Eb in *.
    split; [reflexivity|].
    change (read_token _) with
      (r ← read_hex02 (String r1 (String r0 EmptyString));
       g ← read_hex02 (String g1 (String g0 EmptyString));
       b ← read_hex02 (String b1 (String b0 EmptyString));
       Some (r, g, b)).
    by rewrite Hr', Hg', Hb'. }
  intros Hc. exists (direct_token c). unfold _matchcolor.
  destruct (Hread c Hc) as [Hlen Hback]. split_and!; [done..|].
  intros c' Hc' [= Heq]. destruct (Hread c' Hc') as [_ Hback'].
  rewrite Heq, Hback in Hback'. by injection Hback'.
Qed.

Lemma direct_token_round_trip_witness :
  ∃ t, _matchcolor sample_palette (201, 26, 9) true = Ok (ColorHex t) ∧
       String.length t = 9%nat ∧ read_token t = Some (201, 26, 9).
Proof.
  destruct (direct_token_round_trip sample_palette (201, 26, 9)) as (t & H1 & H2 & H3 & _).
  - unfold valid_rgb, channel. simpl. lia.
  - exists t. split; [exact H1|]. split; [exact H2 | exact H3].
Defined.

(** ** The packer on any catalog, and the output scale *)

(** X15.  A plate height of zero makes [brickify] raise
    [ZeroDivisionError] on every non-empty plate list, whatever the
    catalog: the height conversion divides by it before anything else. *)
Theorem brickify_zero_plate_height (grid : list plate) (parts : list part) (pltheight : Q) :
  grid ≠ [] → (pltheight == 0)%Q →
  brickify grid parts pltheight = Raise ZeroDivisionError.
Proof.
  intros Hne Hz. destruct grid as [|[[[x y] h] col] grid]; [done|].
  unfold brickify, brickify_trace, to_plates. cbn [mapR]. unfold py_div.
  assert (Hq : Qeq_bool pltheight 0 = true) by (by apply Qeq_bool_iff).
  by rewrite Hq.
Qed.

Lemma brickify_zero_plate_height_witness :
  brickify sample_grid sample_catalog 0 = Raise ZeroDivisionError.
Proof. apply brickify_zero_plate_height; [discriminate | reflexivity]. Defined.

Lemma placed_cells_length (trace : list placement) :
  Forall (fun pc : placement => pc.2 ≠ []) trace →
  (length trace <= length (concat (map snd trace)))%nat.
Proof.
  induction 1 as [|[pl [|c cs]] trace Hpc _ IH]; simpl in *; [lia|done|].
  rewrite length_app. lia.
Qed.

(** X16.  On any catalog, also one without a 1 x 1 x 1 part or in another
    order than [_partparse] leaves it: no cell is taken by two placed
    parts, every cell taken is a cell of the grid and held the color the
    part records, and, when every part of the catalog is at least one unit
    in each dimension, there are at most as many placed parts as the grid
    has cells. *)
Theorem brickify_any_catalog (grid : list plate) (parts : list part) (pltheight : Q) :
  grid ≠ [] → ¬ (pltheight == 0)%Q →
  ∃ cells trace,
    grid_cells pltheight grid = Ok cells ∧
    brickify_trace grid parts pltheight = Ok trace ∧
    brickify grid parts pltheight = Ok (map fst trace) ∧
    NoDup (concat (map snd trace)) ∧
    (∀ pl coords c, (pl, coords) ∈ trace → c ∈ coords →
                    c ∈ dict_keys cells ∧ dict_get cells c = Some pl.1.2) ∧
    (Forall (fun p : part => 1 <= p.1.1.1 ∧ 1 <= p.1.1.2 ∧ 1 <= p.1.2) parts →
     (length (map fst trace) <= length (dict_keys cells))%nat).
Proof.
  intros Hne Hplt.
  destruct (brickify_trace_runs grid parts pltheight Hne Hplt)
    as (cells & [m trace] & Hcells & Hrun & (_ & Hperm & _ & Hcol) & Hplaced & _).
  simpl in *.
  destruct (grid_cells_spec grid pltheight cells Hplt Hcells) as (Hnd & _ & _).
  exists cells, trace. split_and!; [done..| | | |].
  - unfold brickify. by rewrite Hrun.
  - rewrite <- Hperm in Hnd. by apply NoDup_app in Hnd as (_ & _ & ?).
  - intros pl coords c Hin Hc. split; [|exact (Hcol pl coords c Hin Hc)].
    rewrite <- Hperm. apply elem_of_app. right.
    apply elem_of_concat. exists coords. split; [done|].
    by apply (list_elem_of_fmap_2 snd _ (pl, coords)).
  - intros Hdims. rewrite length_map.
    etransitivity; [apply placed_cells_length|].
    + eapply Forall_impl; [exact Hplaced|].
      intros pc (x & y & h & partx & party & partz & partdat & ccolor & Hp & -> & _).
      rewrite Forall_forall in Hdims. destruct (Hdims _ Hp) as (Hx & Hy & Hz). simpl in *.
      intros Hnil.
      assert (Hin : (x, y, h) ∈ part_coords x y h partx party partz)
        by (apply part_coords_elem; simpl; lia).
      rewrite Hnil in Hin. by apply elem_of_nil in Hin.
    + rewrite <- Hperm, length_app. lia.
Qed.

Lemma brickify_any_catalog_witness :
  ∃ cells trace,
    grid_cells LEGOPLATEHEIGHT sample_grid = Ok cells ∧
    brickify_trace sample_grid [(2, 1, 1, "3023.dat"%string)] LEGOPLATEHEIGHT = Ok trace ∧
    NoDup (concat (map snd trace)) ∧
    (length (map fst trace) <= length (dict_keys cells))%nat.
Proof.
  destruct (brickify_any_catalog sample_grid [(2, 1, 1, "3023.dat"%string)] LEGOPLATEHEIGHT)
    as (cells & trace & H1 & H2 & _ & H3 & _ & H4).
  - discriminate.
  - intros H. discriminate H.
  - exists cells, trace. split; [exact H1|]. split; [exact H2|]. split; [exact H3|].
    apply H4. repeat constructor; simpl; lia.
Defined.

Lemma py_round_inject_Z (n : Z) : py_round (inject_Z n) = n.
Proof.
  unfold py_round. rewrite Qfloor_Z.
  assert (H : (inject_Z n - inject_Z n ?= 1 # 2)%Q = Lt).
  { apply Qlt_alt. assert (H0 : (inject_Z n - inject_Z n == 0)%Q) by ring.
    by rewrite H0. }
  by rewrite H.
Qed.

Lemma py_round_exact (q : Q) (n : Z) : (q == inject_Z n)%Q → py_round q = n.
Proof. intros H. rewrite (py_round_comp _ _ H). apply py_round_inject_Z. Qed.

(** X17.  Under the default output scale [(20, 20, -8)] no rounding takes
    place on what [brickify] places: a part of size
    [partx * party * partz] laid with its anchor on the cell [(x, y, h)]
    is written at [20 x + 10 partx], [20 y + 10 party] and
    [-8 h - 4 partz], eight units further up for a part three plates
    high. *)
Theorem scale_part_exact (parts : list part) (pc : placement) :
  placement_of parts pc →
  ∃ x y h partx party partz partdat ccolor,
    (partx, party, partz, partdat) ∈ parts ∧
    pc.2 = part_coords x y h partx party partz ∧
    scale_part default_outputscale pc.1
    = (20 * x + 10 * partx, 20 * y + 10 * party,
       (if partz =? 3 then - 8 * h - 4 * partz - 8 else - 8 * h - 4 * partz),
       partdat, ccolor, partx <? party).
Proof.
  intros (x & y & h & partx & party & partz & partdat & ccolor & Hp & Hcoords & Hpl).
  exists x, y, h, partx, party, partz, partdat, ccolor. split_and!; [done..|].
  rewrite Hpl. unfold scale_part, default_outputscale.
  assert (Hx : py_round ((inject_Z x + inject_Z partx / 2) * 20) = 20 * x + 10 * partx).
  { apply py_round_exact. rewrite inject_Z_plus, !inject_Z_mult. field. }
  assert (Hy : py_round ((inject_Z y + inject_Z party / 2) * 20) = 20 * y + 10 * party).
  { apply py_round_exact. rewrite inject_Z_plus, !inject_Z_mult. field. }
  rewrite Hx, Hy. repeat f_equal.
  destruct (partz =? 3); apply py_round_exact; unfold Z.sub;
    rewrite !inject_Z_plus, ?inject_Z_opp, !inject_Z_mult; simpl inject_Z; field.
Qed.

Lemma scale_part_exact_witness :
  ∃ tr, brickify_trace sample_grid sample_catalog LEGOPLATEHEIGHT = Ok tr ∧
    ∀ pc, pc ∈ tr →
      ∃ x y h partx party partz partdat ccolor,
        (partx, party, partz, partdat) ∈ sample_catalog ∧
        pc.2 = part_coords x y h partx party partz ∧
        scale_part default_outputscale pc.1
        = (20 * x + 10 * partx, 20 * y + 10 * party,
           (if partz =? 3 then - 8 * h - 4 * partz - 8 else - 8 * h - 4 * partz),
           partdat, ccolor, partx <? party).
Proof.
  eexists. split; [reflexivity|].
  intros pc Hpc. apply (scale_part_exact sample_catalog).
  apply elem_of_cons in Hpc as [->|Hpc].
  - exists 0, 0, 0, 2, 1, 1, "3023.dat"%string, (ColorId 1).
    split; [apply list_elem_of_here|]. split; reflexivity.
  - apply list_elem_of_singleton in Hpc. subst pc.
    exists 0, 0, 1, 1, 1, 1, "3024.dat"%string, (ColorId 2).
    split; [apply list_elem_of_further, list_elem_of_here|]. split; reflexivity.
Defined.

(** ** The dictionary of the packer *)

Lemma dict_get_set (m : dict) (k c : cell) (v : color) :
  dict_get (dict_set m k v) c = if decide (c = k) then Some v else dict_get m c.
Proof.
  induction m as [|[k' v'] m IH]; simpl.
  - destruct (decide (k = c)) as [Hkc|Hkc], (decide (c = k)) as [Hck|Hck]; congruence.
  - destruct (decide (k' = k)) as [Heq|Hne]; simpl.
    + subst k'. destruct (decide (k = c)) as [Hkc|Hkc], (decide (c = k)) as [Hck|Hck];
        congruence.
    + destruct (decide (k' = c)) as [Hkc|Hkc]; [|done].
      subst k'. by destruct (decide (c = k)).
Qed.

Lemma dict_keys_set (m : dict) (k : cell) (v : color) :
  dict_keys (dict_set m k v)
  = if decide (k ∈ dict_keys m) then dict_keys m else dict_keys m ++ [k].
Proof.
  induction m as [|[k' v'] m IH]; simpl.
  - destruct (decide (k ∈ [])) as [?%elem_of_nil|]; done.
  - destruct (decide (k' = k)) as [Heq|Hne]; simpl.
    + subst k'. destruct (decide (k ∈ k :: dict_keys m)) as [|Hn]; [done|].
      exfalso. apply Hn, list_elem_of_here.
    + rewrite IH.
      destruct (decide (k ∈ dict_keys m)) as [Hin|Hnin],
               (decide (k ∈ k' :: dict_keys m)) as [Hin'|Hnin']; try done.
      * exfalso. by apply Hnin', list_elem_of_further.
      * apply elem_of_cons in Hin' as [Heq|?]; [congruence|done].
Qed.

Lemma build_map_snoc (grid : list (cell * color)) (k : cell) (v : color) :
  build_map (grid ++ [(k, v)]) = dict_set (build_map grid) k v.
Proof. unfold build_map. by rewrite fold_left_app. Qed.

(** X18.  The dictionary [brickify] builds from the plates holds, for
    every cell, the color of the last plate on that cell, later plates
    overwriting earlier ones; its keys, which the packer walks in order,
    are the cells in the order of their first plate. *)
Theorem build_map_last_wins (grid : list (cell * color)) :
  (∀ c col, dict_get (build_map grid) c = Some col ↔
            ∃ pre post, grid = pre ++ (c, col) :: post ∧ c ∉ map fst post) ∧
  dict_keys (build_map grid) = first_occurrences (map fst grid).
Proof.
  induction grid as [|[k v] grid [IHget IHkeys]] using rev_ind.
  - split; [|done]. intros c col. split; [done|].
    intros (pre & post & H & _). by destruct pre.
  - rewrite build_map_snoc. split.
    + intros c col. rewrite dict_get_set.
      destruct (decide (c = k)) as [->|Hne].
      * split.
        -- intros [= ->]. exists grid, []. split; [done|]. by intros ?%elem_of_nil.
        -- intros (pre & post & Heq & Hpost).
           destruct post as [|q post _] using rev_ind.
           ++ apply app_inj_tail in Heq as [_ [= ->]]. done.
           ++ exfalso. rewrite app_comm_cons, app_assoc in Heq.
              apply app_inj_tail in Heq as [_ <-].
              apply Hpost. rewrite map_app. apply elem_of_app. right. apply list_elem_of_here.
      * rewrite IHget. split.
        -- intros (pre & post & -> & Hpost). exists pre, (post ++ [(k, v)]).
           split; [by rewrite <- app_assoc|].
           rewrite map_app. intros [?|Hin%list_elem_of_singleton]%elem_of_app; [done|].
           simpl in Hin. done.
        -- intros (pre & post & Heq & Hpost).
           destruct post as [|q post _] using rev_ind.
           ++ apply app_inj_tail in Heq as [_ [= <-]]. done.
           ++ rewrite app_comm_cons, app_assoc in Heq.
              apply app_inj_tail in Heq as [-> <-].
              exists pre, post. split; [done|].
              intros Hin. apply Hpost. rewrite map_app. apply elem_of_app. by left.
    + rewrite dict_keys_set, IHkeys. unfold first_occurrences.
      rewrite map_app, rev_app_distr. simpl.
      destruct (decide_rel elem_of k (rev (map fst grid))) as [Hin|Hnin].
      * rewrite decide_True; [done|].
        rewrite list_elem_of_In, <- in_rev, <- list_elem_of_In. by apply elem_of_remove_dups.
      * rewrite decide_False; [done|].
        rewrite list_elem_of_In, <- in_rev, <- list_elem_of_In. by rewrite elem_of_remove_dups.
Qed.

Lemma build_map_last_wins_witness :
  dict_get (build_map [((0, 0, 0), ColorId 1); ((1, 0, 0), ColorId 4); ((0, 0, 0), ColorId 2)])
           (0, 0, 0) = Some (ColorId 2).
Proof.
  apply (build_map_last_wins
           [((0, 0, 0), ColorId 1); ((1, 0, 0), ColorId 4); ((0, 0, 0), ColorId 2)]).
  exists [((0, 0, 0), ColorId 1); ((1, 0, 0), ColorId 4)], [].
  split; [reflexivity|]. intros H. by apply elem_of_nil in H.
Defined.
